(** * OpenRCT2 OpenGL texture cache: the atlas slot allocator and the glyph key

    A shallow embedding of [src/openrct2-ui/drawing/engines/opengl/TextureCache.h]:
    the [GlyphId] key with its [Hash] and [Equal] functors, the
    [CachedTextureInfo] record and the [Atlas] class.

    Conventions.
    - Fixed-width integers are [Z] with the conversions written out
      ([to_uint32], [to_sint32], ...).  Arithmetic on [sint32] wraps; the
      theorems that need the mathematical value carry the range in which
      the source does not overflow.
    - A [std::vector] is a list whose last element is [back()].
    - The build is a debug build: [assert] is a check.  A failed assertion,
      an integer division by zero, the signed division [INT32_MIN / -1]
      and a refused [resize] are the faults of the [result] type.
    - Floating-point data is kept abstract (class [IEEE]); what the proofs
      rely on is stated as laws against the real numbers ([IEEE_laws]). *)

From Stdlib Require Import ZArith Lia Reals Lra.
From stdpp Require Import base tactics decidable option list.

Local Open Scope Z_scope.

(** ** Machine integers *)

(** Modelled from the spec: the typedefs of [openrct2/common.h] and
    [OpenGLAPI.h] ([uint32], [uint64], [sint32], [GLuint]) are not part of
    the sources at hand; they are the usual fixed-width integers, [GLuint]
    an unsigned 32-bit one, and [size_t] is that of an LP64 target. *)
Definition to_uint32 (n : Z) : Z := n mod 2 ^ 32.
Definition to_uint64 (n : Z) : Z := n mod 2 ^ 64.
Definition to_size_t (n : Z) : Z := n mod 2 ^ 64.
Definition to_sint32 (n : Z) : Z := (n + 2 ^ 31) mod 2 ^ 32 - 2 ^ 31.

Definition is_uint32 (n : Z) : Prop := 0 <= n < 2 ^ 32.
Definition is_uint64 (n : Z) : Prop := 0 <= n < 2 ^ 64.
Definition is_sint32 (n : Z) : Prop := - 2 ^ 31 <= n < 2 ^ 31.

Definition INT32_MAX : Z := 2 ^ 31 - 1.

(** ** Faults *)

Inductive Fault : Set :=
| AssertionFailed   (* assert(...) did not hold *)
| DivisionByZero    (* integer [/] or [%] with a zero divisor *)
| DivisionOverflow  (* [INT32_MIN / -1]: the quotient fits no sint32 *)
| LengthError.      (* std::vector::resize beyond max_size() *)

Inductive result (A : Type) : Type :=
| Ok (a : A)
| Failed (f : Fault).
Arguments Ok {A} a.
Arguments Failed {A} f.

#[global] Instance result_ret : MRet result := fun A a => Ok a.
#[global] Instance result_bind : MBind result := fun A B k r =>
  match r with
  | Ok a => k a
  | Failed f => Failed f
  end.

Definition assert (b : bool) : result unit :=
  if b then Ok tt else Failed AssertionFailed.

(** Signed 32-bit arithmetic as the source uses it. *)
Definition sint32_mul (a b : Z) : Z := to_sint32 (a * b).
Definition sint32_add (a b : Z) : Z := to_sint32 (a + b).

(** [a / b] on [sint32] truncates toward zero.  It has no value for a
    zero divisor, nor for [INT32_MIN / -1], whose quotient 2^31 is no
    [sint32]: the division traps on both.  Every other quotient of two
    [sint32] is a [sint32]. *)
Definition sint32_div_overflows (a b : Z) : bool :=
  (a =? - 2 ^ 31) && (b =? -1).

Definition sint32_div (a b : Z) : result Z :=
  if b =? 0 then Failed DivisionByZero
  else if sint32_div_overflows a b then Failed DivisionOverflow
  else Ok (to_sint32 (Z.quot a b)).

(** Unsigned 32-bit division and remainder ([GLuint] against [sint32]: the
    signed operand is converted to unsigned first). *)
Definition uint32_div (a b : Z) : result Z :=
  if to_uint32 b =? 0 then Failed DivisionByZero else Ok (a / to_uint32 b).
Definition uint32_rem (a b : Z) : result Z :=
  if to_uint32 b =? 0 then Failed DivisionByZero else Ok (a mod to_uint32 b).

(** ** std::vector<GLuint> *)

(** [max_size()] of a vector of 4-byte elements (libstdc++ on LP64:
    [PTRDIFF_MAX / sizeof(GLuint)]); a larger [resize] throws. *)
Definition vector_max_size : Z := 2 ^ 61 - 1.

Definition vector_size (v : list Z) : Z := Z.of_nat (length v).

Definition vector_resize (v : list Z) (n : Z) : result (list Z) :=
  if vector_max_size <? n then Failed LengthError
  else Ok (take (Z.to_nat n) v ++ replicate (Z.to_nat n - length v) 0).

Definition vector_back (v : list Z) : Z := List.last v 0.
Definition vector_pop_back (v : list Z) : list Z := removelast v.
Definition vector_push_back (v : list Z) (e : Z) : list Z := v ++ [e].

(** ** GlyphId *)

Record GlyphId : Set := { Image : Z; Palette : Z }.

(** The ranges of the member types: [uint32 Image; uint64 Palette]. *)
Definition GlyphId_wf (k : GlyphId) : Prop :=
  is_uint32 (Image k) /\ is_uint64 (Palette k).

Definition Hash (k : GlyphId) : Z :=
  let hash := to_size_t (to_uint32 (Image k * 7)) in
  let hash := to_size_t (hash + to_uint64 (Z.land (Palette k) 0xFFFFFFFF * 13)) in
  let hash := to_size_t (hash + to_uint64 (Z.shiftr (Palette k) 32 * 23)) in
  hash.

Definition Equal (lhs rhs : GlyphId) : bool :=
  (Image lhs =? Image rhs) && (Palette lhs =? Palette rhs).

Definition TEXTURE_CACHE_MAX_ATLAS_SIZE : Z := 2048.
Definition TEXTURE_CACHE_SMALLEST_SLOT : Z := 32.

(** ** Floating point *)

(** The floating-point operations the header uses.  [fp] holds IEEE 754
    data; a binary32 value is also a binary64 value, so the promotion of a
    [float] to [double] is silent.  [<cmath>] is a library outside the
    repository: its functions are operations of the class. *)
Class IEEE : Type := {
  fp : Type;
  fp_zero : fp;                      (* 0.0f, the value-initialised float *)
  float_of_sint32 : Z -> fp;         (* (float) n *)
  double_of_sint32 : Z -> fp;        (* (double) n *)
  float_div : fp -> fp -> fp;        (* a / b on float *)
  log2f : fp -> fp;
  log2 : fp -> fp;
  ceil : fp -> fp;
  sint32_of_fp : fp -> Z             (* (sint32) x, truncation *)
}.

(** Truncation toward zero, the conversion of a floating-point value to
    an integer type. *)
Definition real_trunc (r : R) : Z :=
  if Rle_dec 0 r then Zfloor r else Zceil r.

(** What IEEE 754 and a reasonable libm guarantee, against the reals.
    [fp_val] is the real value of finite data (none for an infinity or a
    NaN).  Integers up to 2^24 convert exactly to binary32; [log2f] and
    [log2] are exact on powers of two, and [log2f] is elsewhere off by at
    most 2^-11 (an actual libm is within a few units in the last place,
    about 2^-20 here); [ceil] is exact; the conversion to [sint32]
    truncates what fits. *)
Class IEEE_laws (F : IEEE) : Type := {
  fp_val : fp -> option R;
  float_of_sint32_exact : forall n : Z,
    - 2 ^ 24 <= n <= 2 ^ 24 -> fp_val (float_of_sint32 n) = Some (IZR n);
  log2f_pow2 : forall k : Z,
    0 <= k <= 24 -> fp_val (log2f (float_of_sint32 (2 ^ k))) = Some (IZR k);
  log2f_accurate : forall n : Z,
    1 <= n <= 2 ^ 24 ->
    exists r : R, fp_val (log2f (float_of_sint32 n)) = Some r /\
                  (Rabs (r - ln (IZR n) / ln 2) <= / 2048)%R;
  log2_pow2 : forall k : Z,
    0 <= k <= 30 -> fp_val (log2 (double_of_sint32 (2 ^ k))) = Some (IZR k);
  ceil_exact : forall (x : fp) (r : R),
    fp_val x = Some r -> fp_val (ceil x) = Some (IZR (Zceil r));
  sint32_of_fp_trunc : forall (x : fp) (r : R),
    fp_val x = Some r -> (- 2147483649 < r < 2147483648)%R ->
    sint32_of_fp x = real_trunc r
}.

(** ** GLSL vectors *)

(** Modelled from the spec: [GLSLTypes.h] is not part of the sources at
    hand; [ivec4] and [vec4] are its four-component vectors of [GLint] and
    [GLfloat], with members [x], [y], [z], [w] initialised in that order. *)
Module GLSL.
Record Vec4 (T : Type) : Type := { x : T; y : T; z : T; w : T }.
Arguments Build_Vec4 {T}.
Arguments x {T}.
Arguments y {T}.
Arguments z {T}.
Arguments w {T}.
End GLSL.

Definition ivec4 : Type := GLSL.Vec4 Z.

Section TextureCache.
Context {F : IEEE}.

Definition vec4 : Type := GLSL.Vec4 fp.

(** A [vec4] with no initialiser in a braced list is value-initialised. *)
Definition vec4_value_initialised : vec4 :=
  GLSL.Build_Vec4 fp_zero fp_zero fp_zero fp_zero.

(** ** CachedTextureInfo *)

Record CachedTextureInfo : Type := {
  index : Z;
  slot : Z;
  bounds : ivec4;
  normalizedBounds : vec4;
  computedBounds : vec4
}.

(** ** Atlas *)

Record Atlas : Type := {
  _index : Z;
  _imageSize : Z;
  _atlasWidth : Z;
  _atlasHeight : Z;
  _freeSlots : list Z;
  _cols : Z;
  _rows : Z
}.

(** [Atlas(GLuint index, sint32 imageSize)]: the other members keep their
    default member initialisers. *)
Definition Atlas_new (index imageSize : Z) : Atlas :=
  {| _index := index; _imageSize := imageSize;
     _atlasWidth := 0; _atlasHeight := 0; _freeSlots := [];
     _cols := 0; _rows := 0 |}.

Definition with_freeSlots (a : Atlas) (v : list Z) : Atlas :=
  {| _index := _index a; _imageSize := _imageSize a;
     _atlasWidth := _atlasWidth a; _atlasHeight := _atlasHeight a;
     _freeSlots := v; _cols := _cols a; _rows := _rows a |}.

(** The loop [for (size_t i = 0; i < size; i++) _freeSlots[i] = (GLuint)i]. *)
Definition fill_slots (v : list Z) : list Z :=
  foldl (fun acc i => <[i := to_uint32 (Z.of_nat i)]> acc) v (seq 0 (length v)).

Definition Initialise (a : Atlas) (atlasWidth atlasHeight : Z) : result Atlas :=
  cols ← sint32_div atlasWidth (_imageSize a);
  rows ← sint32_div atlasHeight (_imageSize a);
  slots ← vector_resize (_freeSlots a) (to_size_t (sint32_mul cols rows));
  mret {| _index := _index a; _imageSize := _imageSize a;
          _atlasWidth := atlasWidth; _atlasHeight := atlasHeight;
          _freeSlots := fill_slots slots;
          _cols := cols; _rows := rows |}.

Definition GetSlotCoordinates (a : Atlas) (slot actualWidth actualHeight : Z)
  : result ivec4 :=
  q ← uint32_div slot (_cols a);
  r ← uint32_rem slot (_cols a);
  let row := to_sint32 q in
  let col := to_sint32 r in
  mret (GLSL.Build_Vec4
          (sint32_mul (_imageSize a) col)
          (sint32_mul (_imageSize a) row)
          (sint32_add (sint32_mul (_imageSize a) col) actualWidth)
          (sint32_add (sint32_mul (_imageSize a) row) actualHeight)).

Definition NormalizeCoordinates (a : Atlas) (coords : ivec4) : vec4 :=
  GLSL.Build_Vec4
    (float_div (float_of_sint32 (GLSL.x coords)) (float_of_sint32 (_atlasWidth a)))
    (float_div (float_of_sint32 (GLSL.y coords)) (float_of_sint32 (_atlasHeight a)))
    (float_div (float_of_sint32 (GLSL.z coords)) (float_of_sint32 (_atlasWidth a)))
    (float_div (float_of_sint32 (GLSL.w coords)) (float_of_sint32 (_atlasHeight a))).

(** The braced list of the [return] has four initialisers for the five
    members: [computedBounds] is value-initialised. *)
Definition Allocate (a : Atlas) (actualWidth actualHeight : Z)
  : result (CachedTextureInfo * Atlas) :=
  _ ← assert (0 <? vector_size (_freeSlots a));
  let s := vector_back (_freeSlots a) in
  let a' := with_freeSlots a (vector_pop_back (_freeSlots a)) in
  b ← GetSlotCoordinates a' s actualWidth actualHeight;
  mret ({| index := _index a';
           slot := s;
           bounds := b;
           normalizedBounds := NormalizeCoordinates a' b;
           computedBounds := vec4_value_initialised |}, a').

Definition Free (a : Atlas) (info : CachedTextureInfo) : result Atlas :=
  _ ← assert (_index a =? index info);
  mret (with_freeSlots a (vector_push_back (_freeSlots a) (slot info))).

Definition CalculateImageSizeOrder (actualWidth actualHeight : Z) : Z :=
  let actualSize := Z.max actualWidth actualHeight in
  let actualSize :=
    if actualSize <? TEXTURE_CACHE_SMALLEST_SLOT
    then TEXTURE_CACHE_SMALLEST_SLOT else actualSize in
  sint32_of_fp (ceil (log2f (float_of_sint32 actualSize))).

Definition IsImageSuitable (a : Atlas) (actualWidth actualHeight : Z) : bool :=
  let imageOrder := CalculateImageSizeOrder actualWidth actualHeight in
  let atlasOrder := sint32_of_fp (log2 (double_of_sint32 (_imageSize a))) in
  imageOrder =? atlasOrder.

Definition GetFreeSlots (a : Atlas) : Z :=
  to_sint32 (vector_size (_freeSlots a)).

(** ** Specification-side notions *)

(** The atlas's own size-class order, as [IsImageSuitable] computes it. *)
Definition atlasOrder (a : Atlas) : Z :=
  sint32_of_fp (log2 (double_of_sint32 (_imageSize a))).

(** What [Initialise] leaves behind and [Allocate] and [Free] of this
    atlas's own records keep: a positive slot edge, the grid that fits
    the atlas, and free slot ids inside the grid. *)
Record Atlas_ok (a : Atlas) : Prop := {
  ok_imageSize : 0 < _imageSize a;
  ok_atlasWidth : 0 <= _atlasWidth a <= INT32_MAX;
  ok_atlasHeight : 0 <= _atlasHeight a <= INT32_MAX;
  ok_cols : _cols a = _atlasWidth a / _imageSize a;
  ok_rows : _rows a = _atlasHeight a / _imageSize a;
  ok_grid : _cols a * _rows a <= INT32_MAX;
  ok_slots : Forall (fun s => 0 <= s < _cols a * _rows a) (_freeSlots a)
}.

(** A [vec4] member is populated when the record holds something else than
    what value-initialisation leaves there. *)
Definition populated (v : vec4) : Prop := v <> vec4_value_initialised.

(** *** Call sequences

    An atlas together with the bookkeeping the slot-reuse property speaks
    of: the records that are live, the slot ids never handed out so far,
    and the slot ids given back by [Free] and not handed out again. *)
Record Tracked : Type := {
  atlas : Atlas;
  live : list CachedTextureInfo;
  never : list Z;
  freed : list Z
}.

Definition tracked_init (a : Atlas) : Tracked :=
  {| atlas := a; live := []; never := _freeSlots a; freed := [] |}.

Inductive Call : Type :=
| CallAllocate (actualWidth actualHeight : Z)
| CallFree (info : CachedTextureInfo).

(** One call of the sequence.  [Allocate] has to return (its assertion
    needs a free slot); [Free] is given a live record of this atlas only. *)
Inductive step : Tracked -> Call -> Tracked -> Prop :=
| step_Allocate t actualWidth actualHeight info a' :
    Allocate (atlas t) actualWidth actualHeight = Ok (info, a') ->
    step t (CallAllocate actualWidth actualHeight)
         {| atlas := a';
            live := info :: live t;
            never := filter (fun s => s <> slot info) (never t);
            freed := filter (fun s => s <> slot info) (freed t) |}
| step_Free t info l1 l2 a' :
    live t = l1 ++ info :: l2 ->
    Free (atlas t) info = Ok a' ->
    step t (CallFree info)
         {| atlas := a';
            live := l1 ++ l2;
            never := never t;
            freed := slot info :: freed t |}.

Inductive steps : Tracked -> list Call -> Tracked -> Prop :=
| steps_nil t : steps t [] t
| steps_snoc t calls t' c t'' :
    steps t calls t' -> step t' c t'' -> steps t (calls ++ [c]) t''.

(** The invariant of a call sequence: free slot ids are pairwise distinct,
    so are the slot ids of the live records, no slot id is both free and
    live, and every free slot id was never handed out or has been given
    back. *)
Record tracked_inv (t : Tracked) : Prop := {
  inv_free_NoDup : NoDup (_freeSlots (atlas t));
  inv_live_NoDup : NoDup (slot <$> live t);
  inv_free_not_live : forall s, s ∈ _freeSlots (atlas t) -> s ∉ (slot <$> live t);
  inv_free_source : forall s, s ∈ _freeSlots (atlas t) -> s ∈ never t \/ s ∈ freed t
}.

(** What every state of a call sequence after [Initialise] has: a column
    count that is a [sint32], slot ids — free or live — below 2^31, and a
    column count that is not zero unless there is no slot at all. *)
Record reach_inv (t : Tracked) : Prop := {
  reach_cols : is_sint32 (_cols (atlas t));
  reach_free : Forall (fun s => 0 <= s < 2 ^ 31) (_freeSlots (atlas t));
  reach_live : Forall (fun info => 0 <= slot info < 2 ^ 31) (live t);
  reach_divisor : to_uint32 (_cols (atlas t)) <> 0 \/
                  (_freeSlots (atlas t) = [] /\ live t = [])
}.

End TextureCache.

(** The size-class order in the words of the specification:
    [ceil(log2(n))] over the real numbers. *)
Definition ceil_log2 (n : Z) : Z := Zceil (ln (IZR n) / ln 2).

(** The key as one number: [Image] above the 64 bits of [Palette]. *)
Definition GlyphId_bits (k : GlyphId) : Z := Image k * 2 ^ 64 + Palette k.

(** A component of the key is a [width]-bit value: over the keys the
    member types admit, it takes the values below [2 ^ width], all of them
    and no other. *)
Definition holds_bits (width : Z) (component : GlyphId -> Z) : Prop :=
  (forall k : GlyphId, GlyphId_wf k -> 0 <= component k < 2 ^ width) /\
  (forall v : Z, 0 <= v < 2 ^ width -> exists k : GlyphId, GlyphId_wf k /\ component k = v).

(** *** A concrete atlas

    The atlas of order-5 images: slot edge 32 in a 2048 x 2048 texture
    layer, as [Initialise] leaves it. *)
Definition atlas_2048_32 : Atlas :=
  {| _index := 0; _imageSize := 32;
     _atlasWidth := 2048; _atlasHeight := 2048;
     _freeSlots := Z.of_nat <$> seq 0 4096;
     _cols := 64; _rows := 64 |}.

(** *** Exact arithmetic

    The real numbers as floating-point data, every operation exact: the
    instance at which closed statements are evaluated. *)
#[global] Instance real_IEEE : IEEE := {|
  fp := R;
  fp_zero := 0%R;
  float_of_sint32 := IZR;
  double_of_sint32 := IZR;
  float_div := Rdiv;
  log2f := fun r => (ln r / ln 2)%R;
  log2 := fun r => (ln r / ln 2)%R;
  ceil := fun r => IZR (Zceil r);
  sint32_of_fp := real_trunc
|}.

(** The record of slot 4095 (column 63 of row 63) and the record of slot 7
    (column 7 of row 0) of the order-5 atlas, for a 20 x 20 image. *)
Definition info_4095 : CachedTextureInfo (F := real_IEEE) :=
  {| index := 0; slot := 4095;
     bounds := GLSL.Build_Vec4 2016 2016 2036 2036;
     normalizedBounds :=
       GLSL.Build_Vec4 (2016 / 2048)%R (2016 / 2048)%R (2036 / 2048)%R (2036 / 2048)%R;
     computedBounds := GLSL.Build_Vec4 0%R 0%R 0%R 0%R |}.

(** A record carrying the index 3, for an atlas of that index. *)
Definition info_narrow : CachedTextureInfo (F := real_IEEE) :=
  {| index := 3; slot := 0;
     bounds := GLSL.Build_Vec4 0 0 20 20;
     normalizedBounds :=
       GLSL.Build_Vec4 (0 / 32)%R (0 / 32)%R (20 / 32)%R (20 / 32)%R;
     computedBounds := GLSL.Build_Vec4 0%R 0%R 0%R 0%R |}.

Definition info_7 : CachedTextureInfo (F := real_IEEE) :=
  {| index := 0; slot := 7;
     bounds := GLSL.Build_Vec4 224 0 244 20;
     normalizedBounds :=
       GLSL.Build_Vec4 (224 / 2048)%R (0 / 2048)%R (244 / 2048)%R (20 / 2048)%R;
     computedBounds := GLSL.Build_Vec4 0%R 0%R 0%R 0%R |}.

(** * Machine integers: conversions inside the range *)

Lemma to_sint32_id (n : Z) : is_sint32 n -> to_sint32 n = n.
Proof.
  unfold is_sint32, to_sint32. intros Hn.
  rewrite Z.mod_small; lia.
Qed.

Lemma to_uint32_id (n : Z) : is_uint32 n -> to_uint32 n = n.
Proof. unfold is_uint32, to_uint32. intros Hn. apply Z.mod_small. lia. Qed.

Lemma to_size_t_id (n : Z) : 0 <= n < 2 ^ 64 -> to_size_t n = n.
Proof. unfold to_size_t. intros Hn. apply Z.mod_small. lia. Qed.

Lemma to_sint32_range (n : Z) : is_sint32 (to_sint32 n).
Proof.
  unfold is_sint32, to_sint32.
  pose proof (Z.mod_pos_bound (n + 2 ^ 31) (2 ^ 32)). lia.
Qed.

(** Wrapping the factors first does not change a wrapped product. *)
Lemma to_sint32_mul_idemp (a b : Z) :
  to_sint32 (to_sint32 a * to_sint32 b) = to_sint32 (a * b).
Proof.
  unfold to_sint32. f_equal.
  set (M := 2 ^ 32).
  assert (Ha : ((a + 2 ^ 31) mod M - 2 ^ 31) = a - M * ((a + 2 ^ 31) / M)).
  { pose proof (Z.div_mod (a + 2 ^ 31) M). unfold M in *. lia. }
  assert (Hb : ((b + 2 ^ 31) mod M - 2 ^ 31) = b - M * ((b + 2 ^ 31) / M)).
  { pose proof (Z.div_mod (b + 2 ^ 31) M). unfold M in *. lia. }
  rewrite Ha, Hb.
  set (qa := (a + 2 ^ 31) / M). set (qb := (b + 2 ^ 31) / M).
  replace ((a - M * qa) * (b - M * qb) + 2 ^ 31)
    with (a * b + 2 ^ 31 + (- qa * b - a * qb + M * qa * qb) * M) by ring.
  apply Z.mod_add. unfold M. lia.
Qed.

(** A negative [sint32] becomes a [size_t] no vector can hold. *)
Lemma to_size_t_sint32_small (n : Z) :
  is_sint32 n -> to_size_t n <= vector_max_size -> 0 <= n /\ to_size_t n = n.
Proof.
  unfold is_sint32, to_size_t, vector_max_size. intros Hn Hle.
  destruct (Z_lt_le_dec n 0) as [Hneg | Hpos].
  - exfalso.
    assert (n mod 2 ^ 64 = n + 2 ^ 64).
    { symmetry. apply (Z.mod_unique_pos _ _ (-1)); lia. }
    lia.
  - split; [lia |]. apply Z.mod_small. lia.
Qed.

(** * std::vector *)

Lemma vector_back_push (v : list Z) (e : Z) : vector_back (vector_push_back v e) = e.
Proof. unfold vector_back, vector_push_back. apply last_last. Qed.

Lemma vector_pop_push (v : list Z) (e : Z) :
  vector_pop_back (vector_push_back v e) = v.
Proof. unfold vector_pop_back, vector_push_back. apply removelast_last. Qed.

Lemma vector_size_push (v : list Z) (e : Z) :
  vector_size (vector_push_back v e) = vector_size v + 1.
Proof.
  unfold vector_size, vector_push_back. rewrite length_app. simpl. lia.
Qed.

Lemma vector_resize_length (v v' : list Z) (n : Z) :
  0 <= n -> vector_resize v n = Ok v' -> length v' = Z.to_nat n.
Proof.
  unfold vector_resize. intros Hn.
  destruct (vector_max_size <? n); [discriminate |].
  intros [= <-].
  rewrite length_app, length_take, length_replicate. lia.
Qed.

(** The filling loop, seen from the index it has reached: the prefix
    is final, the suffix is still to be overwritten. *)
Lemma fill_slots_from (done todo : list Z) :
  foldl (fun acc i => <[i := to_uint32 (Z.of_nat i)]> acc)
        (done ++ todo) (seq (length done) (length todo))
  = done ++ ((fun i => to_uint32 (Z.of_nat i)) <$> seq (length done) (length todo)).
Proof.
  revert done. induction todo as [| e todo IH]; intros done; simpl.
  - reflexivity.
  - rewrite insert_app_r_alt by lia. rewrite Nat.sub_diag. simpl.
    change (done ++ to_uint32 (Z.of_nat (length done)) :: todo)
      with (done ++ [to_uint32 (Z.of_nat (length done))] ++ todo).
    rewrite app_assoc.
    specialize (IH (done ++ [to_uint32 (Z.of_nat (length done))])).
    rewrite length_app in IH. simpl in IH.
    replace (length done + 1)%nat with (S (length done)) in IH by lia.
    rewrite IH. rewrite <- app_assoc. reflexivity.
Qed.

Lemma fill_slots_seq (v : list Z) :
  fill_slots v = (fun i => to_uint32 (Z.of_nat i)) <$> seq 0 (length v).
Proof. unfold fill_slots. apply (fill_slots_from [] v). Qed.

Lemma fill_slots_small (v : list Z) :
  Z.of_nat (length v) <= 2 ^ 32 -> fill_slots v = Z.of_nat <$> seq 0 (length v).
Proof.
  intros Hlen. rewrite fill_slots_seq.
  apply list_fmap_ext. intros i n Hin.
  apply lookup_seq in Hin as [-> Hlt]. simpl.
  apply to_uint32_id. unfold is_uint32. lia.
Qed.

(** * Signed division *)

Lemma sint32_div_Ok (a b q : Z) :
  sint32_div a b = Ok q ->
  b <> 0 /\ sint32_div_overflows a b = false /\ q = to_sint32 (Z.quot a b).
Proof.
  unfold sint32_div. destruct (b =? 0) eqn:Hb; [discriminate |].
  destruct (sint32_div_overflows a b); [discriminate |].
  intros [= <-]. apply Z.eqb_neq in Hb. auto.
Qed.

Lemma sint32_div_returns (a b : Z) :
  b <> 0 -> sint32_div_overflows a b = false ->
  sint32_div a b = Ok (to_sint32 (Z.quot a b)).
Proof.
  intros Hb Ho. unfold sint32_div. apply Z.eqb_neq in Hb. rewrite Hb, Ho. reflexivity.
Qed.

(** A quotient that fits is not the overflowing one. *)
Lemma sint32_div_fits (a b : Z) :
  is_sint32 (Z.quot a b) -> sint32_div_overflows a b = false.
Proof.
  unfold is_sint32, sint32_div_overflows. intros Hq.
  destruct (a =? - 2 ^ 31) eqn:Ha; [| reflexivity].
  destruct (b =? -1) eqn:Hb; [| reflexivity].
  apply Z.eqb_eq in Ha, Hb. subst. exfalso.
  change (Z.quot (- 2 ^ 31) (-1)) with (2 ^ 31) in Hq. lia.
Qed.


(** * Initialise *)

(** Whenever [Initialise] returns, the free slots are [0 .. n-1] in
    increasing order, [n] being the (non-negative) wrapped product of the
    grid dimensions. *)
Lemma Initialise_Ok_inv (a a' : Atlas) (atlasWidth atlasHeight : Z) :
  Initialise a atlasWidth atlasHeight = Ok a' ->
  _imageSize a <> 0 /\
  _index a' = _index a /\ _imageSize a' = _imageSize a /\
  _atlasWidth a' = atlasWidth /\ _atlasHeight a' = atlasHeight /\
  _cols a' = to_sint32 (Z.quot atlasWidth (_imageSize a)) /\
  _rows a' = to_sint32 (Z.quot atlasHeight (_imageSize a)) /\
  0 <= sint32_mul (_cols a') (_rows a') /\
  _freeSlots a' = Z.of_nat <$> seq 0 (Z.to_nat (sint32_mul (_cols a') (_rows a'))).
Proof.
  unfold Initialise.
  destruct (sint32_div atlasWidth (_imageSize a)) as [c | f] eqn:Hdc; [| discriminate].
  destruct (sint32_div atlasHeight (_imageSize a)) as [r | f] eqn:Hdr; [| discriminate].
  apply sint32_div_Ok in Hdc as (Hs & _ & ->).
  apply sint32_div_Ok in Hdr as (_ & _ & ->).
  cbn [mbind result_bind].
  set (cols := to_sint32 (Z.quot atlasWidth (_imageSize a))).
  set (rows := to_sint32 (Z.quot atlasHeight (_imageSize a))).
  destruct (vector_resize (_freeSlots a) (to_size_t (sint32_mul cols rows)))
    as [v | f] eqn:Hv; [| discriminate].
  cbn [mbind result_bind mret result_ret]. intros [= <-]. cbn.
  assert (Hsmall : to_size_t (sint32_mul cols rows) <= vector_max_size).
  { unfold vector_resize in Hv.
    destruct (vector_max_size <? to_size_t (sint32_mul cols rows)) eqn:E;
      [discriminate | apply Z.ltb_ge in E; exact E]. }
  destruct (to_size_t_sint32_small (sint32_mul cols rows)) as [Hpos Hid];
    [apply to_sint32_range | exact Hsmall |].
  rewrite Hid in Hv.
  apply vector_resize_length in Hv; [| exact Hpos].
  repeat split; try exact Hs; try exact Hpos.
  rewrite fill_slots_small, Hv; [reflexivity |].
  rewrite Hv, Z2Nat.id by exact Hpos.
  pose proof (to_sint32_range (cols * rows)) as Hr.
  unfold is_sint32 in Hr. fold (sint32_mul cols rows) in Hr. lia.
Qed.

(** [Initialise] returns when the slot edge is not zero, neither division
    overflows and the number of grid cells is a non-negative [sint32]. *)
Lemma Initialise_returns (a : Atlas) (atlasWidth atlasHeight : Z) :
  _imageSize a <> 0 ->
  sint32_div_overflows atlasWidth (_imageSize a) = false ->
  sint32_div_overflows atlasHeight (_imageSize a) = false ->
  0 <= Z.quot atlasWidth (_imageSize a) * Z.quot atlasHeight (_imageSize a) <= INT32_MAX ->
  exists a', Initialise a atlasWidth atlasHeight = Ok a' /\
    sint32_mul (_cols a') (_rows a')
    = Z.quot atlasWidth (_imageSize a) * Z.quot atlasHeight (_imageSize a).
Proof.
  intros Hs How Hoh Hgrid. unfold Initialise.
  rewrite !sint32_div_returns by assumption.
  cbn [mbind result_bind].
  set (cols := to_sint32 (Z.quot atlasWidth (_imageSize a))).
  set (rows := to_sint32 (Z.quot atlasHeight (_imageSize a))).
  assert (Hmul : sint32_mul cols rows
                 = Z.quot atlasWidth (_imageSize a) * Z.quot atlasHeight (_imageSize a)).
  { unfold sint32_mul, cols, rows. rewrite to_sint32_mul_idemp.
    apply to_sint32_id. unfold is_sint32, INT32_MAX in *. lia. }
  unfold vector_resize. rewrite Hmul, to_size_t_id by (unfold INT32_MAX in *; lia).
  destruct (vector_max_size <? _) eqn:Hmax.
  { apply Z.ltb_lt in Hmax. unfold vector_max_size, INT32_MAX in *. lia. }
  cbn [mbind result_bind mret result_ret].
  eexists. split; [reflexivity |]. cbn. exact Hmul.
Qed.

(** After [Initialise], a free slot means a column count that is not zero. *)
Lemma Initialise_cols_nonzero (a0 a : Atlas) (atlasWidth atlasHeight : Z) :
  Initialise a0 atlasWidth atlasHeight = Ok a ->
  _freeSlots a <> [] -> to_uint32 (_cols a) <> 0.
Proof.
  intros Hinit Hne.
  apply Initialise_Ok_inv in Hinit as (_ & _ & _ & _ & _ & Hc & _ & _ & Hfree).
  intros Hz. apply Hne. rewrite Hfree.
  assert (Hcols : _cols a = 0).
  { pose proof (to_sint32_range (Z.quot atlasWidth (_imageSize a0))) as Hr.
    rewrite <- Hc in Hr. unfold is_sint32 in Hr. unfold to_uint32 in Hz.
    destruct (Z_lt_le_dec (_cols a) 0) as [Hneg | Hpos].
    - assert (_cols a mod 2 ^ 32 = _cols a + 2 ^ 32).
      { symmetry. apply (Z.mod_unique_pos _ _ (-1)); lia. }
      lia.
    - rewrite Z.mod_small in Hz by lia. exact Hz. }
  rewrite Hcols. reflexivity.
Qed.

Lemma length_fmap_seq (n : nat) : length (Z.of_nat <$> seq 0 n) = n.
Proof. rewrite length_fmap. apply length_seq. Qed.

Lemma NoDup_fmap_seq (n : nat) : NoDup (Z.of_nat <$> seq 0 n).
Proof. apply NoDup_fmap_2; [apply Nat2Z.inj' | apply NoDup_seq]. Qed.

Lemma elem_of_fmap_seq (n : nat) (s : Z) :
  s ∈ (Z.of_nat <$> seq 0 n) <-> 0 <= s < Z.of_nat n.
Proof.
  rewrite list_elem_of_fmap. split.
  - intros (i & -> & Hi). apply elem_of_seq in Hi. lia.
  - intros Hs. exists (Z.to_nat s). split; [lia |]. apply elem_of_seq. lia.
Qed.

(** C7: for an atlas with imageSize 32, [Initialise(2048, 2048)] returns
    with exactly (2048/32)^2 = 4096 free slots, which is what
    [GetFreeSlots] reports before any allocation; in general, when the slot
    edge is not zero, the two quotients fit a [sint32] (every quotient of
    two [sint32] but [INT32_MIN / -1] does) and the number of grid cells is
    a non-negative [sint32], after [Initialise(w, h)] the free-slot count
    is [(w / imageSize) * (h / imageSize)], the divisions being integer
    divisions of the source language. *)
Theorem Initialise_free_slot_count :
  (forall index : Z,
      exists a', Initialise (Atlas_new index 32)
                   TEXTURE_CACHE_MAX_ATLAS_SIZE TEXTURE_CACHE_MAX_ATLAS_SIZE = Ok a' /\
                 GetFreeSlots a' = 4096 /\ length (_freeSlots a') = 4096%nat) /\
  (forall (a : Atlas) (w h : Z),
      _imageSize a <> 0 ->
      is_sint32 (Z.quot w (_imageSize a)) ->
      is_sint32 (Z.quot h (_imageSize a)) ->
      0 <= Z.quot w (_imageSize a) * Z.quot h (_imageSize a) <= INT32_MAX ->
      exists a', Initialise a w h = Ok a' /\
                 GetFreeSlots a' = Z.quot w (_imageSize a) * Z.quot h (_imageSize a)).
Proof.
  assert (Hgen : forall (a : Atlas) (w h : Z),
      _imageSize a <> 0 ->
      is_sint32 (Z.quot w (_imageSize a)) ->
      is_sint32 (Z.quot h (_imageSize a)) ->
      0 <= Z.quot w (_imageSize a) * Z.quot h (_imageSize a) <= INT32_MAX ->
      exists a', Initialise a w h = Ok a' /\
                 GetFreeSlots a' = Z.quot w (_imageSize a) * Z.quot h (_imageSize a) /\
                 Z.of_nat (length (_freeSlots a'))
                 = Z.quot w (_imageSize a) * Z.quot h (_imageSize a)).
  { intros a w h Hs Hqw Hqh Hgrid.
    destruct (Initialise_returns a w h Hs (sint32_div_fits _ _ Hqw)
                (sint32_div_fits _ _ Hqh) Hgrid) as (a' & Hinit & Hmul).
    exists a'. split; [exact Hinit |].
    apply Initialise_Ok_inv in Hinit as (_ & _ & _ & _ & _ & _ & _ & Hpos & Hfree).
    unfold GetFreeSlots, vector_size.
    rewrite Hfree, length_fmap_seq, Z2Nat.id, Hmul by exact Hpos.
    split; [| reflexivity].
    apply to_sint32_id. unfold is_sint32, INT32_MAX in *. lia. }
  split.
  - intros index.
    destruct (Hgen (Atlas_new index 32) 2048 2048) as (a' & Hinit & Hcount & Hlen).
    + discriminate.
    + change (is_sint32 64). unfold is_sint32. lia.
    + change (is_sint32 64). unfold is_sint32. lia.
    + change (0 <= 4096 <= INT32_MAX). unfold INT32_MAX. lia.
    + change (GetFreeSlots a' = 4096) in Hcount.
      change (Z.of_nat (length (_freeSlots a')) = 4096) in Hlen.
      exists a'. repeat split; [exact Hinit | exact Hcount | lia].
  - intros a w h Hs Hqw Hqh Hgrid.
    destruct (Hgen a w h Hs Hqw Hqh Hgrid) as (a' & Hinit & Hcount & _).
    exists a'. split; assumption.
Qed.

(** * Allocate and Free *)

Section AllocateFree.
Context {F : IEEE}.

(** The pixel rectangle of a slot as the source computes it, wrapping
    arithmetic included. *)
Lemma GetSlotCoordinates_returns (a : Atlas) (s w h : Z) :
  to_uint32 (_cols a) <> 0 ->
  GetSlotCoordinates a s w h
  = Ok (GLSL.Build_Vec4
          (sint32_mul (_imageSize a) (to_sint32 (s mod to_uint32 (_cols a))))
          (sint32_mul (_imageSize a) (to_sint32 (s / to_uint32 (_cols a))))
          (sint32_add (sint32_mul (_imageSize a) (to_sint32 (s mod to_uint32 (_cols a)))) w)
          (sint32_add (sint32_mul (_imageSize a) (to_sint32 (s / to_uint32 (_cols a)))) h)).
Proof.
  intros Hc. unfold GetSlotCoordinates, uint32_div, uint32_rem.
  destruct (to_uint32 (_cols a) =? 0) eqn:E; [apply Z.eqb_eq in E; contradiction |].
  reflexivity.
Qed.

Lemma GetSlotCoordinates_Ok_cols (a : Atlas) (s w h : Z) (b : ivec4) :
  GetSlotCoordinates a s w h = Ok b -> to_uint32 (_cols a) <> 0.
Proof.
  unfold GetSlotCoordinates, uint32_div.
  destruct (to_uint32 (_cols a) =? 0) eqn:E; [discriminate |].
  intros _. apply Z.eqb_neq. exact E.
Qed.

(** [Allocate] on a free list that ends in [s]. *)
Lemma Allocate_back (a : Atlas) (w h s : Z) (rest : list Z) (b : ivec4) :
  _freeSlots a = rest ++ [s] ->
  GetSlotCoordinates a s w h = Ok b ->
  Allocate a w h
  = Ok ({| index := _index a; slot := s; bounds := b;
           normalizedBounds := NormalizeCoordinates a b;
           computedBounds := vec4_value_initialised |},
        with_freeSlots a rest).
Proof.
  intros Hfree Hb. unfold Allocate, vector_size, vector_back, vector_pop_back.
  rewrite Hfree, length_app, last_last, removelast_last. simpl length.
  replace (0 <? Z.of_nat (length rest + 1)) with true by (symmetry; apply Z.ltb_lt; lia).
  cbn [assert mbind result_bind].
  change (GetSlotCoordinates (with_freeSlots a rest) s w h)
    with (GetSlotCoordinates a s w h).
  rewrite Hb. reflexivity.
Qed.

(** What a returning [Allocate] has done. *)
Lemma Allocate_Ok_inv (a a' : Atlas) (w h : Z) (info : CachedTextureInfo) :
  Allocate a w h = Ok (info, a') ->
  _freeSlots a = _freeSlots a' ++ [slot info] /\
  a' = with_freeSlots a (_freeSlots a') /\
  index info = _index a /\
  GetSlotCoordinates a (slot info) w h = Ok (bounds info) /\
  normalizedBounds info = NormalizeCoordinates a (bounds info) /\
  computedBounds info = vec4_value_initialised.
Proof.
  unfold Allocate, vector_size.
  destruct (_freeSlots a) as [| e v] eqn:Hfree using rev_ind; [discriminate |].
  clear IHv.
  rewrite length_app. simpl length.
  replace (0 <? Z.of_nat (length v + 1)) with true by (symmetry; apply Z.ltb_lt; lia).
  cbn [assert mbind result_bind].
  unfold vector_back, vector_pop_back. rewrite last_last, removelast_last.
  change (GetSlotCoordinates (with_freeSlots a v) e w h)
    with (GetSlotCoordinates a e w h).
  destruct (GetSlotCoordinates a e w h) as [b | f] eqn:Hb; [| discriminate].
  cbn [mbind result_bind mret result_ret]. intros [= <- <-]. cbn.
  repeat split; assumption.
Qed.

Lemma Free_returns (a : Atlas) (info : CachedTextureInfo) :
  _index a = index info ->
  Free a info = Ok (with_freeSlots a (vector_push_back (_freeSlots a) (slot info))).
Proof.
  intros Hi. unfold Free. rewrite Hi, Z.eqb_refl. reflexivity.
Qed.

Lemma Free_Ok_inv (a a' : Atlas) (info : CachedTextureInfo) :
  Free a info = Ok a' ->
  _index a = index info /\
  a' = with_freeSlots a (vector_push_back (_freeSlots a) (slot info)).
Proof.
  unfold Free. destruct (_index a =? index info) eqn:E; [| discriminate].
  apply Z.eqb_eq in E. cbn. intros [= <-]. split; [exact E | reflexivity].
Qed.

Lemma Free_mismatch (a : Atlas) (info : CachedTextureInfo) :
  _index a <> index info -> Free a info = Failed AssertionFailed.
Proof.
  intros Hi. unfold Free. apply Z.eqb_neq in Hi. rewrite Hi. reflexivity.
Qed.

Lemma to_uint32_cols (a : Atlas) :
  0 < _cols a < 2 ^ 31 -> to_uint32 (_cols a) = _cols a.
Proof. intros Hc. apply to_uint32_id. unfold is_uint32. lia. Qed.

(** C6, as the code has it: the free-slot set behaves as a stack.  On
    every atlas whose column count is not zero (as the unsigned divisor of
    [slot / _cols]), immediately after [Free(info)] has returned, the next
    [Allocate] returns a record whose slot is [info.slot], the slot freed
    last, and leaves the free set as it was before the [Free]. *)
Theorem Free_then_Allocate_reuses_slot
  (a a' : Atlas) (info : CachedTextureInfo) (actualWidth actualHeight : Z) :
  to_uint32 (_cols a) <> 0 ->
  Free a info = Ok a' ->
  exists info' a'',
    Allocate a' actualWidth actualHeight = Ok (info', a'') /\
    slot info' = slot info /\
    _freeSlots a'' = _freeSlots a.
Proof.
  intros Hcols Hfree.
  apply Free_Ok_inv in Hfree as [_ ->].
  eexists _, _. split.
  - apply (Allocate_back _ _ _ (slot info) (_freeSlots a)).
    + reflexivity.
    + apply GetSlotCoordinates_returns. exact Hcols.
  - split; reflexivity.
Qed.

(** C8: [Free(info)] asserts that [info.index] is the atlas's own index.
    When the indices differ the assertion fails; when they match the call
    returns, the slot id is pushed onto the free set, which grows by one
    element, and so does the count [GetFreeSlots] reports as long as it
    fits the [sint32] it is returned in. *)
Theorem Free_index_contract (a : Atlas) (info : CachedTextureInfo) :
  (_index a <> index info -> Free a info = Failed AssertionFailed) /\
  (_index a = index info ->
   exists a', Free a info = Ok a' /\
     _freeSlots a' = _freeSlots a ++ [slot info] /\
     length (_freeSlots a') = S (length (_freeSlots a)) /\
     (vector_size (_freeSlots a) < INT32_MAX -> GetFreeSlots a' = GetFreeSlots a + 1)).
Proof.
  split; [apply Free_mismatch |].
  intros Hi. eexists. split; [apply Free_returns; exact Hi |].
  cbn [_freeSlots with_freeSlots]. unfold vector_push_back.
  split; [reflexivity |]. split.
  - rewrite length_app. simpl. lia.
  - intros Hfit. unfold GetFreeSlots. cbn [_freeSlots with_freeSlots].
    fold (vector_push_back (_freeSlots a) (slot info)).
    rewrite vector_size_push.
    unfold vector_size, INT32_MAX in *.
    rewrite !to_sint32_id; unfold is_sint32; lia.
Qed.

End AllocateFree.

(** * The atlas invariant *)

Lemma Initialise_ok (a a' : Atlas) (atlasWidth atlasHeight : Z) :
  0 < _imageSize a ->
  0 <= atlasWidth <= INT32_MAX ->
  0 <= atlasHeight <= INT32_MAX ->
  (atlasWidth / _imageSize a) * (atlasHeight / _imageSize a) <= INT32_MAX ->
  Initialise a atlasWidth atlasHeight = Ok a' ->
  Atlas_ok a'.
Proof.
  intros Hs Hw Hh Hgrid Hinit.
  apply Initialise_Ok_inv in Hinit
    as (_ & _ & Hsize & Hwidth & Hheight & Hcols & Hrows & Hpos & Hfree).
  rewrite Z.quot_div_nonneg in Hcols, Hrows by lia.
  assert (Hc : 0 <= atlasWidth / _imageSize a <= INT32_MAX).
  { split; [apply Z.div_pos; lia |].
    transitivity atlasWidth; [| lia]. apply Z.div_le_upper_bound; nia. }
  assert (Hr : 0 <= atlasHeight / _imageSize a <= INT32_MAX).
  { split; [apply Z.div_pos; lia |].
    transitivity atlasHeight; [| lia]. apply Z.div_le_upper_bound; nia. }
  rewrite to_sint32_id in Hcols, Hrows by (unfold is_sint32, INT32_MAX in *; lia).
  assert (Hmul : sint32_mul (_cols a') (_rows a') = _cols a' * _rows a').
  { unfold sint32_mul. apply to_sint32_id. rewrite Hcols, Hrows.
    unfold is_sint32, INT32_MAX in *. nia. }
  constructor; rewrite ?Hsize, ?Hwidth, ?Hheight; try assumption.
  - rewrite Hcols, Hrows. exact Hgrid.
  - rewrite Hfree, Hmul. apply Forall_forall. intros s Hin.
    apply elem_of_fmap_seq in Hin. rewrite <- Hmul. lia.
Qed.

Section Invariant.
Context {F : IEEE}.

Lemma Allocate_ok (a a' : Atlas) (w h : Z) (info : CachedTextureInfo) :
  Atlas_ok a -> Allocate a w h = Ok (info, a') ->
  Atlas_ok a' /\ 0 <= slot info < _cols a * _rows a.
Proof.
  intros [Hs Hw Hh Hc Hr Hg Hsl] Halloc.
  apply Allocate_Ok_inv in Halloc as (Hfree & -> & _).
  rewrite Hfree in Hsl. apply Forall_app in Hsl as [Hrest Hlast].
  split.
  - constructor; cbn; assumption.
  - apply Forall_inv in Hlast. exact Hlast.
Qed.


(** The grid position of a free slot, and the pixel rectangle staying
    inside the atlas: no step of [GetSlotCoordinates] wraps. *)
Lemma slot_in_grid (a : Atlas) (s : Z) :
  Atlas_ok a -> 0 <= s < _cols a * _rows a ->
  0 < _cols a <= INT32_MAX /\
  0 <= s mod _cols a < _cols a /\
  0 <= s / _cols a < _rows a /\
  _imageSize a * (s mod _cols a) + _imageSize a <= _atlasWidth a /\
  _imageSize a * (s / _cols a) + _imageSize a <= _atlasHeight a.
Proof.
  intros [Hs Hw Hh Hc Hr Hg _] Hslot.
  assert (Hcw : _imageSize a * _cols a <= _atlasWidth a).
  { rewrite Hc. apply Z.mul_div_le. exact Hs. }
  assert (Hrh : _imageSize a * _rows a <= _atlasHeight a).
  { rewrite Hr. apply Z.mul_div_le. exact Hs. }
  assert (Hc0 : 0 <= _cols a) by (rewrite Hc; apply Z.div_pos; lia).
  assert (Hcpos : 0 < _cols a) by nia.
  assert (Hmod : 0 <= s mod _cols a < _cols a) by (apply Z.mod_pos_bound; exact Hcpos).
  assert (Hdiv : 0 <= s / _cols a < _rows a).
  { split; [apply Z.div_pos; lia |]. apply Z.div_lt_upper_bound; lia. }
  repeat split; try lia; nia.
Qed.

(** Progress: with a free slot left, [Allocate] returns, whatever the
    image size. *)
Lemma Allocate_returns (a : Atlas) (w h : Z) :
  Atlas_ok a -> _freeSlots a <> [] ->
  exists info a', Allocate a w h = Ok (info, a').
Proof.
  intros Hok Hne.
  destruct (_freeSlots a) as [| s rest] eqn:Hfree using rev_ind; [contradiction |].
  clear IHrest.
  assert (Hslot : 0 <= s < _cols a * _rows a).
  { pose proof (ok_slots a Hok) as Hsl. rewrite Hfree in Hsl.
    apply Forall_app in Hsl as [_ Hlast]. apply Forall_inv in Hlast. exact Hlast. }
  destruct (slot_in_grid a s Hok Hslot) as (Hc & _).
  eexists _, _. apply (Allocate_back a w h s rest); [exact Hfree |].
  apply GetSlotCoordinates_returns.
  rewrite to_uint32_id; [lia |]. unfold is_uint32, INT32_MAX in *. lia.
Qed.

End Invariant.

(** * Call sequences keep live slot ids apart *)

Lemma Initialise_atlas_2048_32 :
  Initialise (Atlas_new 0 32) 2048 2048 = Ok atlas_2048_32.
Proof. vm_compute. reflexivity. Qed.

Lemma Atlas_ok_2048_32 : Atlas_ok atlas_2048_32.
Proof.
  apply (Initialise_ok (Atlas_new 0 32) _ 2048 2048).
  - reflexivity.
  - unfold INT32_MAX. lia.
  - unfold INT32_MAX. lia.
  - change (4096 <= INT32_MAX). unfold INT32_MAX. lia.
  - exact Initialise_atlas_2048_32.
Qed.

Section CallSequences.
Context {F : IEEE}.

Lemma tracked_init_inv (a0 a : Atlas) (atlasWidth atlasHeight : Z) :
  Initialise a0 atlasWidth atlasHeight = Ok a -> tracked_inv (tracked_init a).
Proof.
  intros Hinit.
  apply Initialise_Ok_inv in Hinit as (_ & _ & _ & _ & _ & _ & _ & _ & Hfree).
  constructor; cbn.
  - rewrite Hfree. apply NoDup_fmap_seq.
  - apply NoDup_nil. exact I.
  - intros s _. apply not_elem_of_nil.
  - intros s Hs. left. exact Hs.
Qed.

Lemma step_inv (t t' : Tracked) (c : Call) :
  tracked_inv t -> step t c t' -> tracked_inv t'.
Proof.
  intros [Hfn Hln Hdis Hsrc] Hstep.
  destruct Hstep as [t w h info a' Halloc | t info l1 l2 a' Hlive Hfree].
  - apply Allocate_Ok_inv in Halloc as (Hfs & _).
    rewrite Hfs in Hfn, Hdis, Hsrc.
    apply NoDup_app in Hfn as (Hfn' & Hnotlast & _).
    constructor; cbn.
    + exact Hfn'.
    + apply NoDup_cons. split; [| exact Hln].
      apply Hdis. apply elem_of_app. right. apply list_elem_of_singleton. reflexivity.
    + intros s Hs Hin. apply elem_of_cons in Hin as [-> | Hin].
      * apply (Hnotlast _ Hs). apply list_elem_of_singleton. reflexivity.
      * apply (Hdis s); [apply elem_of_app; left; exact Hs | exact Hin].
    + intros s Hs.
      assert (Hne : s <> slot info).
      { intros ->. apply (Hnotlast _ Hs). apply list_elem_of_singleton. reflexivity. }
      destruct (Hsrc s) as [Hn | Hf]; [apply elem_of_app; left; exact Hs | |].
      * left. apply list_elem_of_filter. split; assumption.
      * right. apply list_elem_of_filter. split; assumption.
  - apply Free_Ok_inv in Hfree as [_ ->].
    rewrite Hlive, fmap_app, fmap_cons in Hln, Hdis.
    apply NoDup_app in Hln as (Hl1 & Hl12 & Hl2).
    apply NoDup_cons in Hl2 as [Hnot2 Hl2].
    assert (Hnot1 : slot info ∉ (slot <$> l1)).
    { intros Hin. apply (Hl12 _ Hin). apply elem_of_cons. left. reflexivity. }
    assert (Hnotfree : slot info ∉ _freeSlots (atlas t)).
    { intros Hin. apply (Hdis _ Hin). apply elem_of_app. right.
      apply elem_of_cons. left. reflexivity. }
    constructor; cbn; unfold vector_push_back.
    + apply NoDup_app. repeat split; [exact Hfn | | apply NoDup_singleton].
      intros s Hs Hin. apply list_elem_of_singleton in Hin as ->. contradiction.
    + rewrite fmap_app. apply NoDup_app. repeat split; [exact Hl1 | | exact Hl2].
      intros s Hs Hin. apply (Hl12 _ Hs). apply elem_of_cons. right. exact Hin.
    + intros s Hs Hin. rewrite fmap_app in Hin.
      apply elem_of_app in Hs as [Hs | Hs].
      * apply (Hdis _ Hs). apply elem_of_app in Hin as [Hin | Hin];
          apply elem_of_app; [left; exact Hin | right; apply elem_of_cons; right; exact Hin].
      * apply list_elem_of_singleton in Hs as ->.
        apply elem_of_app in Hin as [Hin | Hin]; contradiction.
    + intros s Hs. apply elem_of_app in Hs as [Hs | Hs].
      * destruct (Hsrc s Hs) as [Hn | Hf]; [left; exact Hn |].
        right. apply elem_of_cons. right. exact Hf.
      * apply list_elem_of_singleton in Hs as ->.
        right. apply elem_of_cons. left. reflexivity.
Qed.

Lemma steps_inv (t t' : Tracked) (calls : list Call) :
  tracked_inv t -> steps t calls t' -> tracked_inv t'.
Proof.
  intros Hinv Hsteps. induction Hsteps as [t | t calls t' c t'' _ IH Hstep].
  - exact Hinv.
  - apply (step_inv t' t'' c); [apply IH; exact Hinv | exact Hstep].
Qed.

(** C3: after [Initialise], along every finite sequence of [Allocate]
    calls that return and of [Free] calls on live records of this atlas,
    the slot ids of the live records are pairwise distinct, and every
    further [Allocate] hands out a slot id that was never handed out
    before or has been freed since it was last handed out, and that no live
    record holds. *)
Theorem slot_ids_never_duplicated
  (a0 a : Atlas) (atlasWidth atlasHeight : Z) (calls : list Call) (t : Tracked) :
  Initialise a0 atlasWidth atlasHeight = Ok a ->
  steps (tracked_init a) calls t ->
  NoDup (slot <$> live t) /\
  forall actualWidth actualHeight t',
    step t (CallAllocate actualWidth actualHeight) t' ->
    exists info,
      live t' = info :: live t /\
      (slot info ∈ never t \/ slot info ∈ freed t) /\
      (slot info ∉ (slot <$> live t)) /\
      NoDup (slot <$> live t').
Proof.
  intros Hinit Hsteps.
  assert (Hinv : tracked_inv t).
  { apply (steps_inv _ _ calls (tracked_init_inv _ _ _ _ Hinit) Hsteps). }
  split; [apply (inv_live_NoDup t Hinv) |].
  intros w h t' Hstep.
  pose proof (step_inv _ _ _ Hinv Hstep) as Hinv'.
  inversion Hstep as [t1 w1 h1 info a' Halloc | ]; subst.
  exists info. cbn in *.
  apply Allocate_Ok_inv in Halloc as (Hfs & _).
  assert (Hin : slot info ∈ _freeSlots (atlas t)).
  { rewrite Hfs. apply elem_of_app. right. apply list_elem_of_singleton. reflexivity. }
  repeat split.
  - apply (inv_free_source t Hinv). exact Hin.
  - apply (inv_free_not_live t Hinv). exact Hin.
  - apply (inv_live_NoDup _ Hinv').
Qed.

End CallSequences.

(** * The record Allocate returns *)

Section AllocateRecord.
Context {F : IEEE}.

Lemma reach_init (a0 a : Atlas) (atlasWidth atlasHeight : Z) :
  Initialise a0 atlasWidth atlasHeight = Ok a -> reach_inv (tracked_init a).
Proof.
  intros Hinit.
  pose proof (Initialise_cols_nonzero _ _ _ _ Hinit) as Hnz.
  apply Initialise_Ok_inv in Hinit as (_ & _ & _ & _ & _ & Hc & _ & Hpos & Hfree).
  constructor; cbn [tracked_init atlas live].
  - rewrite Hc. apply to_sint32_range.
  - rewrite Hfree. apply Forall_forall. intros s Hs.
    apply elem_of_fmap_seq in Hs. rewrite Z2Nat.id in Hs by exact Hpos.
    pose proof (to_sint32_range (_cols a * _rows a)) as Hr.
    unfold is_sint32 in Hr. fold (sint32_mul (_cols a) (_rows a)) in Hr. lia.
  - constructor.
  - destruct (_freeSlots a) as [| s l] eqn:E.
    + right. split; reflexivity.
    + left. apply Hnz. discriminate.
Qed.

Lemma reach_step (t t' : Tracked) (c : Call) :
  reach_inv t -> step t c t' -> reach_inv t'.
Proof.
  intros [Hc Hfree Hlive Hdiv] Hstep.
  destruct Hstep as [t w h info a' Halloc | t info l1 l2 a' Hl Hfr].
  - apply Allocate_Ok_inv in Halloc as (Hfs & Ha' & _ & Hb & _).
    apply GetSlotCoordinates_Ok_cols in Hb.
    rewrite Hfs in Hfree. apply Forall_app in Hfree as [Hrest Hlast].
    apply Forall_inv in Hlast.
    constructor; cbn [atlas live].
    + rewrite Ha'. exact Hc.
    + exact Hrest.
    + constructor; assumption.
    + left. rewrite Ha'. exact Hb.
  - apply Free_Ok_inv in Hfr as [_ Ha'].
    rewrite Hl in Hlive. apply Forall_app in Hlive as [Hl1 Hl2].
    apply Forall_cons_1 in Hl2 as [Hslot Hl2].
    constructor; cbn [atlas live].
    + rewrite Ha'. exact Hc.
    + rewrite Ha'. cbn [_freeSlots with_freeSlots]. unfold vector_push_back.
      apply Forall_app. split; [exact Hfree |]. constructor; [exact Hslot | constructor].
    + apply Forall_app. split; assumption.
    + left. rewrite Ha'. cbn [_cols with_freeSlots].
      destruct Hdiv as [Hnz | [_ Hnil]]; [exact Hnz |].
      rewrite Hl in Hnil. destruct l1; discriminate Hnil.
Qed.

Lemma reach_steps (t t' : Tracked) (calls : list Call) :
  reach_inv t -> steps t calls t' -> reach_inv t'.
Proof.
  intros Hinv Hsteps. induction Hsteps as [t | t calls t' c t'' _ IH Hstep].
  - exact Hinv.
  - apply (reach_step t' t'' c); [apply IH; exact Hinv | exact Hstep].
Qed.

(** C1, as the code has it: take an atlas initialised via [Initialise],
    used since through any sequence of [Allocate] calls that returned and
    of [Free] calls on its live records, and having at least one free
    slot.  [Allocate(actualWidth, actualHeight)] pops the last free slot
    id [s] and returns the record whose index is the atlas's index, whose
    slot is [s], whose bounds are
    [(imageSize*col, imageSize*row, imageSize*col+actualWidth, imageSize*row+actualHeight)]
    with [row = s / cols] and [col = s % cols] in the 32-bit arithmetic of
    the source — the plain integers whenever the products and sums fit a
    [sint32], the division being the plain one for a positive column count
    — and whose normalizedBounds are those bounds divided componentwise,
    in floating point, by the atlas pixel width and height; the fifth
    member, computedBounds, has no initialiser and is left
    value-initialised. *)
Theorem Allocate_record
  (a0 a : Atlas) (atlasWidth atlasHeight : Z) (calls : list Call) (t : Tracked)
  (actualWidth actualHeight : Z) :
  Initialise a0 atlasWidth atlasHeight = Ok a ->
  steps (tracked_init a) calls t ->
  _freeSlots (atlas t) <> [] ->
  exists (rest : list Z) (s : Z),
    _freeSlots (atlas t) = rest ++ [s] /\
    let cols := to_uint32 (_cols (atlas t)) in
    let row := s / cols in
    let col := s mod cols in
    let edge := _imageSize (atlas t) in
    let b := GLSL.Build_Vec4
               (sint32_mul edge col)
               (sint32_mul edge row)
               (sint32_add (sint32_mul edge col) actualWidth)
               (sint32_add (sint32_mul edge row) actualHeight) in
    Allocate (atlas t) actualWidth actualHeight
    = Ok ({| index := _index (atlas t);
             slot := s;
             bounds := b;
             normalizedBounds :=
               GLSL.Build_Vec4
                 (float_div (float_of_sint32 (GLSL.x b))
                            (float_of_sint32 (_atlasWidth (atlas t))))
                 (float_div (float_of_sint32 (GLSL.y b))
                            (float_of_sint32 (_atlasHeight (atlas t))))
                 (float_div (float_of_sint32 (GLSL.z b))
                            (float_of_sint32 (_atlasWidth (atlas t))))
                 (float_div (float_of_sint32 (GLSL.w b))
                            (float_of_sint32 (_atlasHeight (atlas t))));
             computedBounds := vec4_value_initialised |},
          with_freeSlots (atlas t) rest) /\
    (is_sint32 (edge * col) -> is_sint32 (edge * row) ->
     is_sint32 (edge * col + actualWidth) -> is_sint32 (edge * row + actualHeight) ->
     b = GLSL.Build_Vec4 (edge * col) (edge * row)
                         (edge * col + actualWidth) (edge * row + actualHeight)) /\
    (0 < _cols (atlas t) -> cols = _cols (atlas t)).
Proof.
  intros Hinit Hsteps Hne.
  pose proof (reach_steps _ _ _ (reach_init _ _ _ _ Hinit) Hsteps)
    as [Hc Hfree _ Hdiv].
  assert (Hu : to_uint32 (_cols (atlas t)) <> 0).
  { destruct Hdiv as [Hu | [Hnil _]]; [exact Hu | contradiction]. }
  destruct (_freeSlots (atlas t)) as [| s rest] eqn:Hfs using rev_ind;
    [contradiction |].
  clear IHrest. exists rest, s. split; [reflexivity |].
  apply Forall_app in Hfree as [_ Hs]. apply Forall_inv in Hs.
  set (u := to_uint32 (_cols (atlas t))) in *.
  assert (Hupos : 0 < u).
  { pose proof (Z.mod_pos_bound (_cols (atlas t)) (2 ^ 32) ltac:(lia)) as Hb.
    unfold u, to_uint32 in *. lia. }
  assert (Hmod : to_sint32 (s mod u) = s mod u).
  { apply to_sint32_id. unfold is_sint32.
    pose proof (Z.mod_pos_bound s u Hupos). pose proof (Z.mod_le s u ltac:(lia) Hupos).
    lia. }
  assert (Hquot : to_sint32 (s / u) = s / u).
  { apply to_sint32_id. unfold is_sint32.
    pose proof (Z.div_pos s u ltac:(lia) Hupos).
    assert (s / u <= s) by (apply Z.div_le_upper_bound; nia). lia. }
  cbv zeta. split; [| split].
  - erewrite Allocate_back;
      [| exact Hfs | apply GetSlotCoordinates_returns; exact Hu].
    fold u. rewrite Hmod, Hquot. reflexivity.
  - intros H1 H2 H3 H4. unfold sint32_add, sint32_mul.
    rewrite (to_sint32_id _ H1), (to_sint32_id _ H2).
    rewrite (to_sint32_id _ H3), (to_sint32_id _ H4). reflexivity.
  - intros Hpos. apply to_uint32_id. unfold is_sint32 in Hc. unfold is_uint32. lia.
Qed.

End AllocateRecord.

(** * Freeing twice *)

Lemma freeSlots_2048_32 :
  _freeSlots atlas_2048_32 = (Z.of_nat <$> seq 0 4095) ++ [4095].
Proof. vm_compute. reflexivity. Qed.

Section DoubleFree.
Context {F : IEEE}.

(** [Free] looks at the index only: a record can be freed again, and its
    slot id then sits on the free list twice. *)
Lemma Free_twice (a : Atlas) (info : CachedTextureInfo) :
  _index a = index info ->
  exists a2 a3,
    Free a info = Ok a2 /\ Free a2 info = Ok a3 /\
    _freeSlots a3 = _freeSlots a ++ [slot info; slot info] /\
    _cols a3 = _cols a.
Proof.
  intros Hi. eexists _, _.
  split; [apply Free_returns; exact Hi |].
  split; [apply Free_returns; exact Hi |].
  cbn. unfold vector_push_back. rewrite <- app_assoc. split; reflexivity.
Qed.

Lemma Allocate_twice (a : Atlas) (w1 h1 w2 h2 s1 s2 : Z) (rest : list Z) :
  to_uint32 (_cols a) <> 0 ->
  _freeSlots a = rest ++ [s2; s1] ->
  exists i1 a1 i2 a2,
    Allocate a w1 h1 = Ok (i1, a1) /\ Allocate a1 w2 h2 = Ok (i2, a2) /\
    slot i1 = s1 /\ slot i2 = s2 /\ _freeSlots a2 = rest.
Proof.
  intros Hc Hfree.
  eexists _, _, _, _. split; [| split].
  - apply (Allocate_back _ _ _ s1 (rest ++ [s2])).
    + rewrite Hfree, <- app_assoc. reflexivity.
    + apply GetSlotCoordinates_returns. exact Hc.
  - apply (Allocate_back _ _ _ s2 rest).
    + reflexivity.
    + apply GetSlotCoordinates_returns. exact Hc.
  - repeat split; reflexivity.
Qed.

(** C10: [Free] does not check that the freed slot is live.  On the
    order-5 atlas, [Allocate] returning [info] and then [Free(info)] called
    twice leave the slot id of [info] on the free list twice, counted twice
    by [GetFreeSlots], and the next two [Allocate] calls both return that
    slot id: two live records with one slot. *)
Theorem Free_twice_duplicates_slot :
  exists (a : Atlas) (info : CachedTextureInfo) (a1 a2 a3 : Atlas)
         (i1 i2 : CachedTextureInfo) (a4 a5 : Atlas),
    Initialise (Atlas_new 0 32) 2048 2048 = Ok a /\
    Allocate a 20 20 = Ok (info, a1) /\
    Free a1 info = Ok a2 /\
    Free a2 info = Ok a3 /\
    _freeSlots a3 = _freeSlots a1 ++ [slot info; slot info] /\
    GetFreeSlots a3 = GetFreeSlots a1 + 2 /\
    Allocate a3 20 20 = Ok (i1, a4) /\
    Allocate a4 20 20 = Ok (i2, a5) /\
    slot i1 = slot info /\ slot i2 = slot info /\
    ~ NoDup (slot <$> [i2; i1]).
Proof.
  pose proof freeSlots_2048_32 as Hfree.
  assert (Hc : to_uint32 (_cols atlas_2048_32) <> 0) by discriminate.
  pose proof (Allocate_back atlas_2048_32 20 20 4095 _ _ Hfree
                (GetSlotCoordinates_returns _ _ _ _ Hc)) as Halloc.
  match type of Halloc with _ = Ok (?i, ?a') =>
    set (info := i) in *; set (a1 := a') in * end.
  destruct (Free_twice a1 info eq_refl) as (a2 & a3 & Hf1 & Hf2 & Hfs3 & Hc3).
  destruct (Allocate_twice a3 20 20 20 20 (slot info) (slot info) (_freeSlots a1))
    as (i1 & a4 & i2 & a5 & Ha1 & Ha2 & Hs1 & Hs2 & _).
  { rewrite Hc3. exact Hc. }
  { exact Hfs3. }
  exists atlas_2048_32, info, a1, a2, a3, i1, i2, a4, a5.
  split; [exact Initialise_atlas_2048_32 |].
  split; [exact Halloc |].
  split; [exact Hf1 |].
  split; [exact Hf2 |].
  split; [exact Hfs3 |].
  split.
  { unfold GetFreeSlots, vector_size. rewrite Hfs3, length_app.
    change (_freeSlots a1) with (Z.of_nat <$> seq 0 4095).
    rewrite length_fmap_seq. reflexivity. }
  split; [exact Ha1 |].
  split; [exact Ha2 |].
  split; [exact Hs1 |].
  split; [exact Hs2 |].
  cbn [fmap list_fmap]. rewrite Hs1, Hs2. intros Hnd.
  apply NoDup_cons in Hnd as [Hnot _]. apply Hnot.
  apply list_elem_of_singleton. reflexivity.
Qed.

End DoubleFree.

(** * The order-5 atlas in exact arithmetic *)

(** The record [Allocate(20, 20)] returns on the fresh order-5 atlas: slot
    4095, the last cell of the grid, at column 63 of row 63. *)
Lemma Allocate_2048_32 :
  Allocate (F := real_IEEE) atlas_2048_32 20 20
  = Ok (info_4095, with_freeSlots atlas_2048_32 (Z.of_nat <$> seq 0 4095)).
Proof.
  apply (Allocate_back (F := real_IEEE) atlas_2048_32 20 20 4095
           (Z.of_nat <$> seq 0 4095) (GLSL.Build_Vec4 2016 2016 2036 2036)).
  - exact freeSlots_2048_32.
  - reflexivity.
Qed.

(** C1, witness: the theorem at the fresh order-5 atlas, no call made
    yet, and a 20 x 20 image. *)
Lemma Allocate_record_witness :
  exists (rest : list Z) (s : Z),
    _freeSlots atlas_2048_32 = rest ++ [s] /\
    let cols := to_uint32 64 in
    let row := s / cols in
    let col := s mod cols in
    let b := GLSL.Build_Vec4
               (sint32_mul 32 col)
               (sint32_mul 32 row)
               (sint32_add (sint32_mul 32 col) 20)
               (sint32_add (sint32_mul 32 row) 20) in
    Allocate (F := real_IEEE) atlas_2048_32 20 20
    = Ok ({| index := 0;
             slot := s;
             bounds := b;
             normalizedBounds :=
               GLSL.Build_Vec4
                 (IZR (GLSL.x b) / 2048)%R (IZR (GLSL.y b) / 2048)%R
                 (IZR (GLSL.z b) / 2048)%R (IZR (GLSL.w b) / 2048)%R;
             computedBounds := GLSL.Build_Vec4 0%R 0%R 0%R 0%R |},
          with_freeSlots atlas_2048_32 rest) /\
    (is_sint32 (32 * col) -> is_sint32 (32 * row) ->
     is_sint32 (32 * col + 20) -> is_sint32 (32 * row + 20) ->
     b = GLSL.Build_Vec4 (32 * col) (32 * row) (32 * col + 20) (32 * row + 20)) /\
    (0 < 64 -> cols = 64).
Proof.
  apply (Allocate_record (F := real_IEEE)
           (Atlas_new 0 32) atlas_2048_32 2048 2048 []
           (tracked_init atlas_2048_32) 20 20).
  - exact Initialise_atlas_2048_32.
  - apply steps_nil.
  - change (_freeSlots atlas_2048_32 <> []).
    rewrite freeSlots_2048_32. intros Hnil. apply app_eq_nil in Hnil as [_ Hnil].
    discriminate Hnil.
Defined.

(** The allocation after the first one on the order-5 atlas, for a
    10 x 10 image: slot 4094, column 62 of row 63. *)
Lemma Allocate_2048_32_next :
  exists (info2 : CachedTextureInfo (F := real_IEEE)) (a2 : Atlas),
    Allocate (with_freeSlots atlas_2048_32 (Z.of_nat <$> seq 0 4095)) 10 10
    = Ok (info2, a2) /\
    slot info2 = 4094 /\
    bounds info2 = GLSL.Build_Vec4 1984 2016 1994 2026 /\
    computedBounds info2 = GLSL.Build_Vec4 0%R 0%R 0%R 0%R.
Proof.
  set (a1 := with_freeSlots atlas_2048_32 (Z.of_nat <$> seq 0 4095)).
  assert (Hfree : _freeSlots a1 = (Z.of_nat <$> seq 0 4094) ++ [4094]).
  { vm_compute. reflexivity. }
  assert (Hb : GetSlotCoordinates a1 4094 10 10
               = Ok (GLSL.Build_Vec4 1984 2016 1994 2026)) by reflexivity.
  pose proof (Allocate_back (F := real_IEEE) a1 10 10 4094
                (Z.of_nat <$> seq 0 4094)
                (GLSL.Build_Vec4 1984 2016 1994 2026) Hfree Hb) as Halloc.
  eexists _, _. split; [exact Halloc |].
  split; [reflexivity |]. split; reflexivity.
Qed.

(** C1, counterexample: the record [Allocate(20, 20)] returns on the
    fresh order-5 atlas has its bounds and normalizedBounds populated, and
    its computedBounds left as value-initialisation leaves them; the next
    allocation, of another slot for another size, has other bounds and
    the very same computedBounds. *)
Lemma Allocate_computedBounds_not_populated :
  exists (info : CachedTextureInfo (F := real_IEEE)) (a' : Atlas),
    Allocate atlas_2048_32 20 20 = Ok (info, a') /\
    slot info = 4095 /\
    bounds info = GLSL.Build_Vec4 2016 2016 2036 2036 /\
    populated (normalizedBounds info) /\
    ~ populated (computedBounds info) /\
    exists (info2 : CachedTextureInfo (F := real_IEEE)) (a2 : Atlas),
      Allocate a' 10 10 = Ok (info2, a2) /\
      slot info2 = 4094 /\
      bounds info2 = GLSL.Build_Vec4 1984 2016 1994 2026 /\
      computedBounds info2 = computedBounds info.
Proof.
  eexists _, _. split; [exact Allocate_2048_32 |].
  split; [reflexivity |]. split; [reflexivity |]. split; [| split].
  - unfold populated. cbn [normalizedBounds]. intros Heq.
    apply (f_equal GLSL.x) in Heq. cbn in Heq. lra.
  - unfold populated. intros Hne. apply Hne. reflexivity.
  - exact Allocate_2048_32_next.
Qed.

(** C6, witness: a record of slot 7 freed into the order-5 atlas. *)
Lemma Free_then_Allocate_reuses_slot_witness :
  exists (info' : CachedTextureInfo (F := real_IEEE)) (a'' : Atlas),
    Allocate
      (with_freeSlots atlas_2048_32 (vector_push_back (_freeSlots atlas_2048_32) 7))
      20 20 = Ok (info', a'') /\
    slot info' = 7 /\
    _freeSlots a'' = _freeSlots atlas_2048_32.
Proof.
  apply (Free_then_Allocate_reuses_slot (F := real_IEEE) atlas_2048_32 _ info_7 20 20).
  - discriminate.
  - reflexivity.
Defined.

(** C6, counterexample: an atlas with slot edge 64 in a 32 x 32 layer has
    no column.  [Initialise] returns, [Free] of a record with the atlas's
    index returns, and the next [Allocate] does not return the freed slot:
    it divides by zero. *)
Lemma Free_then_Allocate_divides_by_zero :
  exists a a' : Atlas,
    Initialise (Atlas_new 3 64) 32 32 = Ok a /\
    _cols a = 0 /\
    Free (F := real_IEEE) a info_narrow = Ok a' /\
    Allocate (F := real_IEEE) a' 20 20 = Failed DivisionByZero.
Proof.
  eexists _, _. split; [reflexivity |]. split; [reflexivity |].
  split; reflexivity.
Qed.

(** A call sequence on the order-5 atlas: allocate, free, allocate. *)
Lemma steps_2048_32 :
  exists t : Tracked (F := real_IEEE),
    steps (tracked_init atlas_2048_32)
          [CallAllocate 20 20; CallFree info_4095] t /\
    live t = [].
Proof.
  eexists. split.
  - change [CallAllocate 20 20; CallFree info_4095]
      with (([] ++ [CallAllocate 20 20]) ++ [CallFree info_4095]).
    eapply steps_snoc.
    + eapply steps_snoc; [apply steps_nil |].
      apply step_Allocate. exact Allocate_2048_32.
    + apply (step_Free _ _ [] []); [reflexivity |].
      apply Free_returns. reflexivity.
  - reflexivity.
Qed.

(** C3, witness: the theorem after allocate, free on the order-5 atlas. *)
Lemma slot_ids_never_duplicated_witness :
  exists t : Tracked (F := real_IEEE),
    live t = [] /\
    NoDup (slot <$> live t) /\
    forall actualWidth actualHeight t',
      step t (CallAllocate actualWidth actualHeight) t' ->
      exists info,
        live t' = info :: live t /\
        (slot info ∈ never t \/ slot info ∈ freed t) /\
        (slot info ∉ (slot <$> live t)) /\
        NoDup (slot <$> live t').
Proof.
  destruct steps_2048_32 as (t & Hsteps & Hlive).
  exists t. split; [exact Hlive |].
  exact (slot_ids_never_duplicated (F := real_IEEE)
           (Atlas_new 0 32) atlas_2048_32 2048 2048 _ t
           Initialise_atlas_2048_32 Hsteps).
Defined.

(** * Size-class orders *)

Section RealLogarithm.
Local Open Scope R_scope.

Lemma ln_2_bounds : / 2 < ln 2 < 1.
Proof.
  split; [apply ln_lt_2 |].
  rewrite <- (ln_exp 1). apply ln_increasing; [lra |].
  pose proof (exp_ineq1 1). lra.
Qed.

Lemma ln_pow2 (k : Z) : (0 <= k)%Z -> ln (IZR (2 ^ k)) = IZR k * ln 2.
Proof.
  intros Hk. rewrite <- (Z2Nat.id k Hk) at 1.
  rewrite <- pow_IZR, ln_pow by lra.
  rewrite INR_IZR_INZ, Z2Nat.id by exact Hk. reflexivity.
Qed.

(** One step above [p] the logarithm has grown by more than 1/2048, as
    long as [p <= 1024]. *)
Lemma ln_gap_above (p n : R) :
  1 <= p <= 1024 -> p + 1 <= n -> ln p + / 2048 < ln n.
Proof.
  intros Hp Hn.
  assert (He : exp (/ 2048) < 2048 / 2047).
  { assert (H1 : 2047 / 2048 < exp (- / 2048)).
    { pose proof (exp_ineq1 (- / 2048)). lra. }
    rewrite exp_Ropp in H1.
    pose proof (exp_pos (/ 2048)) as Hpos.
    apply (Rmult_lt_reg_r (2047 / 2048)); [lra |].
    apply (Rmult_lt_compat_r (exp (/ 2048))) in H1; [| exact Hpos].
    rewrite Rinv_l in H1 by lra. lra. }
  rewrite <- (ln_exp (/ 2048)), <- ln_mult by (try apply exp_pos; lra).
  apply ln_increasing.
  - apply Rmult_lt_0_compat; [lra | apply exp_pos].
  - pose proof (exp_pos (/ 2048)). nra.
Qed.

(** One step below [q] the logarithm is smaller by more than 1/2048, as
    long as [q <= 2048]. *)
Lemma ln_gap_below (q n : R) :
  0 < n -> n + 1 <= q -> q <= 2048 -> ln n < ln q - / 2048.
Proof.
  intros Hn Hq Hmax.
  assert (He : 2047 / 2048 < exp (- / 2048)).
  { pose proof (exp_ineq1 (- / 2048)). lra. }
  replace (ln q - / 2048) with (ln q + ln (exp (- / 2048))) by (rewrite ln_exp; lra).
  rewrite <- ln_mult by (try apply exp_pos; lra).
  apply ln_increasing; [exact Hn |]. nra.
Qed.

Lemma Rabs_le_both (x e : R) : Rabs x <= e -> - e <= x <= e.
Proof.
  intros He. pose proof (Rle_abs x) as H1. pose proof (Rle_abs (- x)) as H2.
  rewrite Rabs_Ropp in H2. lra.
Qed.

Lemma real_trunc_IZR (n : Z) : real_trunc (IZR n) = n.
Proof.
  unfold real_trunc. destruct (Rle_dec 0 (IZR n)).
  - apply ZfloorZ.
  - apply Zceil_eq. lra.
Qed.

End RealLogarithm.

(** The ceiling of the real binary logarithm is the least exponent whose
    power of two reaches [n]. *)
Lemma ceil_log2_log2_up (n : Z) : 1 <= n -> ceil_log2 n = Z.log2_up n.
Proof.
  intros Hn. unfold ceil_log2.
  destruct (Z.eq_dec n 1) as [-> | Hne].
  - rewrite ln_1. unfold Rdiv. rewrite Rmult_0_l. apply Zceil_eq.
    change (Z.log2_up 1) with 0%Z. lra.
  - pose proof (Z.log2_up_spec n ltac:(lia)) as [Hlo Hhi].
    pose proof (Z.log2_up_nonneg n) as Hk.
    assert (Hk1 : 0 < Z.log2_up n) by (apply Z.log2_up_pos; lia).
    pose proof ln_2_bounds as [HL0 HL1].
    apply Zceil_eq. split.
    + apply (Rmult_lt_reg_r (ln 2)); [lra |].
      unfold Rdiv. rewrite Rmult_assoc, Rinv_l, Rmult_1_r by lra.
      rewrite <- minus_IZR, <- ln_pow2 by lia.
      replace (Z.log2_up n - 1) with (Z.pred (Z.log2_up n)) by lia.
      apply ln_increasing; [apply IZR_lt; apply Z.pow_pos_nonneg; lia | apply IZR_lt; exact Hlo].
    + apply (Rmult_le_reg_r (ln 2)); [lra |].
      unfold Rdiv. rewrite Rmult_assoc, Rinv_l, Rmult_1_r by lra.
      rewrite <- ln_pow2 by lia.
      destruct (Z.eq_dec n (2 ^ Z.log2_up n)) as [Heq | Hneq].
      * rewrite <- Heq. lra.
      * left. apply ln_increasing; [apply IZR_lt; lia | apply IZR_lt; lia].
Qed.

Section SizeOrder.
Context {F : IEEE} {L : IEEE_laws F}.

(** Rounding up and converting: the mathematical ceiling. *)
Lemma ceil_sint32 (x : fp) (r : R) :
  fp_val x = Some r -> (- 2147483648 < r <= 2147483647)%R ->
  sint32_of_fp (ceil x) = Zceil r.
Proof.
  intros Hx Hr.
  pose proof (Zceil_bound r) as Hb.
  rewrite (sint32_of_fp_trunc (ceil x) (IZR (Zceil r))).
  - apply real_trunc_IZR.
  - apply ceil_exact. exact Hx.
  - assert (Hz : - 2147483648 <= Zceil r <= 2147483647).
    { split.
      - apply le_IZR. lra.
      - assert (Zceil r < 2147483647 + 1); [| lia].
        apply lt_IZR. rewrite plus_IZR. lra. }
    destruct Hz as [Hz1 Hz2]. apply IZR_le in Hz1, Hz2. lra.
Qed.

(** Between 32 and 2048 the float computation [ceil(log2f((float) n))]
    hits the exact order: a power of two gives its exponent, and any other
    [n] is far enough from the neighbouring powers of two for the error of
    [log2f] not to matter. *)
Lemma ceil_log2f_order (n : Z) :
  32 <= n <= 2048 ->
  sint32_of_fp (ceil (log2f (float_of_sint32 n))) = Z.log2_up n.
Proof.
  intros Hn.
  pose proof (Z.log2_up_le_mono 32 n ltac:(lia)) as H5.
  pose proof (Z.log2_up_le_mono n 2048 ltac:(lia)) as H11.
  change (Z.log2_up 32) with 5 in H5. change (Z.log2_up 2048) with 11 in H11.
  set (k := Z.log2_up n) in *.
  pose proof (Z.log2_up_spec n ltac:(lia)) as [Hlo Hhi]. fold k in Hlo, Hhi.
  replace (Z.pred k) with (k - 1) in Hlo by lia.
  destruct (Z.eq_dec n (2 ^ k)) as [Heq | Hneq].
  - rewrite Heq at 1.
    rewrite (ceil_sint32 _ (IZR k) (log2f_pow2 k ltac:(lia))).
    + apply Zceil_eq. lra.
    + assert (H5' := IZR_le _ _ H5). assert (H11' := IZR_le _ _ H11). lra.
  - destruct (log2f_accurate n ltac:(lia)) as (r & Hr & Herr).
    assert (Hgap : (IZR k - 1 < r < IZR k)%R).
    { pose proof ln_2_bounds as [HL0 HL1].
      assert (Hp : (1 <= IZR (2 ^ (k - 1)) <= 1024)%R).
      { split.
        - apply IZR_le. pose proof (Z.pow_pos_nonneg 2 (k - 1)). lia.
        - apply IZR_le. change 1024 with (2 ^ 10). apply Z.pow_le_mono_r; lia. }
      assert (Hq : (IZR (2 ^ k) <= 2048)%R).
      { apply IZR_le. change 2048 with (2 ^ 11). apply Z.pow_le_mono_r; lia. }
      pose proof (ln_gap_above (IZR (2 ^ (k - 1))) (IZR n) Hp) as Habove.
      pose proof (ln_gap_below (IZR (2 ^ k)) (IZR n)) as Hbelow.
      rewrite ln_pow2, minus_IZR in Habove by lia.
      rewrite ln_pow2 in Hbelow by lia.
      assert (Ha : (IZR (2 ^ (k - 1)) + 1 <= IZR n)%R).
      { rewrite <- plus_IZR. apply IZR_le. lia. }
      assert (Hb : (IZR n + 1 <= IZR (2 ^ k))%R).
      { rewrite <- plus_IZR. apply IZR_le. lia. }
      specialize (Habove Ha).
      specialize (Hbelow ltac:(apply IZR_lt; lia) Hb Hq).
      set (q := (ln (IZR n) / ln 2)%R) in *.
      assert (Hql : (q * ln 2 = ln (IZR n))%R) by (unfold q; field; lra).
      rewrite <- Hql in Habove, Hbelow.
      apply Rabs_le_both in Herr.
      split; nra. }
    rewrite (ceil_sint32 _ r Hr).
    + apply Zceil_eq. lra.
    + assert (H5' := IZR_le _ _ H5). assert (H11' := IZR_le _ _ H11). lra.
Qed.

(** The order in integer terms: the least exponent whose power of two
    reaches the larger dimension, 32 at least. *)
Lemma CalculateImageSizeOrder_log2_up (width height : Z) :
  1 <= Z.max width height <= 2048 ->
  CalculateImageSizeOrder width height
  = Z.log2_up (Z.max (Z.max width height) TEXTURE_CACHE_SMALLEST_SLOT).
Proof.
  intros Hmax. unfold CalculateImageSizeOrder, TEXTURE_CACHE_SMALLEST_SLOT.
  destruct (Z.max width height <? 32) eqn:Hlt.
  - apply Z.ltb_lt in Hlt. rewrite (Z.max_r (Z.max width height) 32) by lia.
    apply ceil_log2f_order. lia.
  - apply Z.ltb_ge in Hlt. rewrite (Z.max_l (Z.max width height) 32) by lia.
    apply ceil_log2f_order. lia.
Qed.

(** C2: for every width and height with [1 <= max(width, height) <= 2048],
    [CalculateImageSizeOrder(width, height)], a function of its two
    arguments alone, returns [ceil(log2(max(width, height, 32)))], the
    logarithm and the ceiling being those of the real numbers; this holds
    under the floating-point laws of [IEEE_laws]. *)
Theorem CalculateImageSizeOrder_ceil_log2 (width height : Z) :
  1 <= Z.max width height <= 2048 ->
  CalculateImageSizeOrder width height
  = ceil_log2 (Z.max (Z.max width height) TEXTURE_CACHE_SMALLEST_SLOT).
Proof.
  intros Hmax. rewrite CalculateImageSizeOrder_log2_up by exact Hmax.
  symmetry. apply ceil_log2_log2_up. unfold TEXTURE_CACHE_SMALLEST_SLOT. lia.
Qed.

End SizeOrder.

Section Suitability.
Context {F : IEEE} {L : IEEE_laws F}.

Lemma CalculateImageSizeOrder_10_10 : CalculateImageSizeOrder 10 10 = 5.
Proof.
  rewrite CalculateImageSizeOrder_log2_up by (change (1 <= 10 <= 2048); lia).
  reflexivity.
Qed.

Lemma CalculateImageSizeOrder_32_32 : CalculateImageSizeOrder 32 32 = 5.
Proof.
  rewrite CalculateImageSizeOrder_log2_up by (change (1 <= 32 <= 2048); lia).
  reflexivity.
Qed.

(** The order of an atlas whose slot edge is a power of two is the
    exponent. *)
Lemma atlasOrder_pow2 (a : Atlas) (k : Z) :
  0 <= k <= 30 -> _imageSize a = 2 ^ k -> atlasOrder a = k.
Proof.
  intros Hk Hsize. unfold atlasOrder. rewrite Hsize.
  rewrite (sint32_of_fp_trunc _ (IZR k) (log2_pow2 k Hk)).
  - apply real_trunc_IZR.
  - destruct Hk as [Hk0 Hk30]. apply IZR_le in Hk0, Hk30. lra.
Qed.

(** C4: [IsImageSuitable(width, height)] is true exactly when
    [CalculateImageSizeOrder(width, height)] equals the atlas's own order
    [(sint32) log2(imageSize)], which for a slot edge [2^k] is [k]; an
    image of a smaller order is not suitable for an atlas of a larger one;
    a 10x10 and a 32x32 image both have order 5 and are suitable for the
    same atlases. *)
Theorem IsImageSuitable_exact_order (a : Atlas) (width height : Z) :
  (IsImageSuitable a width height = true <->
   CalculateImageSizeOrder width height = atlasOrder a) /\
  (forall k : Z, 0 <= k <= 30 -> _imageSize a = 2 ^ k ->
     (IsImageSuitable a width height = true <->
      CalculateImageSizeOrder width height = k)) /\
  (CalculateImageSizeOrder width height < atlasOrder a ->
     IsImageSuitable a width height = false) /\
  CalculateImageSizeOrder 10 10 = 5 /\
  CalculateImageSizeOrder 32 32 = 5 /\
  IsImageSuitable a 10 10 = IsImageSuitable a 32 32.
Proof.
  assert (Hiff : forall w h, IsImageSuitable a w h = true <->
                             CalculateImageSizeOrder w h = atlasOrder a).
  { intros w h. unfold IsImageSuitable. fold (atlasOrder a). apply Z.eqb_eq. }
  split; [apply Hiff |]. split; [| split; [| split; [| split]]].
  - intros k Hk Hsize. rewrite Hiff, (atlasOrder_pow2 a k Hk Hsize). reflexivity.
  - intros Hlt. unfold IsImageSuitable. fold (atlasOrder a).
    apply Z.eqb_neq. lia.
  - apply CalculateImageSizeOrder_10_10.
  - apply CalculateImageSizeOrder_32_32.
  - unfold IsImageSuitable.
    rewrite CalculateImageSizeOrder_10_10, CalculateImageSizeOrder_32_32. reflexivity.
Qed.

End Suitability.

(** * Exact arithmetic satisfies the laws *)

Lemma real_log2_pow2 (k : Z) : 0 <= k -> (ln (IZR (2 ^ k)) / ln 2)%R = IZR k.
Proof.
  intros Hk. rewrite ln_pow2 by exact Hk.
  pose proof ln_2_bounds as [HL0 HL1]. field. lra.
Qed.

Lemma real_log2f_accurate (n : Z) :
  1 <= n <= 2 ^ 24 ->
  exists r : R, Some (ln (IZR n) / ln 2)%R = Some r /\
                (Rabs (r - ln (IZR n) / ln 2) <= / 2048)%R.
Proof.
  intros _. eexists. split; [reflexivity |].
  unfold Rminus. rewrite Rplus_opp_r, Rabs_R0. lra.
Qed.

Lemma real_ceil_exact (x r : R) :
  Some x = Some r -> Some (IZR (Zceil x)) = Some (IZR (Zceil r)).
Proof. intros [= ->]. reflexivity. Qed.

Lemma real_sint32_of_fp_trunc (x r : R) :
  Some x = Some r -> (- 2147483649 < r < 2147483648)%R -> real_trunc x = real_trunc r.
Proof. intros [= ->] _. reflexivity. Qed.

#[global] Instance real_IEEE_laws : IEEE_laws real_IEEE := {|
  fp_val := Some : @fp real_IEEE -> option R;
  float_of_sint32_exact := fun n _ => eq_refl;
  log2f_pow2 := fun k Hk => f_equal Some (real_log2_pow2 k (proj1 Hk));
  log2f_accurate := real_log2f_accurate;
  log2_pow2 := fun k Hk => f_equal Some (real_log2_pow2 k (proj1 Hk));
  ceil_exact := real_ceil_exact;
  sint32_of_fp_trunc := real_sint32_of_fp_trunc
|}.

(** C2, witness: a 10 x 10 image in exact arithmetic. *)
Lemma CalculateImageSizeOrder_ceil_log2_witness :
  CalculateImageSizeOrder (F := real_IEEE) 10 10 = ceil_log2 32.
Proof.
  apply (CalculateImageSizeOrder_ceil_log2 (L := real_IEEE_laws) 10 10).
  change (1 <= 10 <= 2048). lia.
Defined.

(** C4, witness: a 20 x 20 image and the order-5 atlas in exact arithmetic. *)
Lemma IsImageSuitable_exact_order_witness :
  (IsImageSuitable (F := real_IEEE) atlas_2048_32 20 20 = true <->
   CalculateImageSizeOrder 20 20 = atlasOrder atlas_2048_32) /\
  (forall k : Z, 0 <= k <= 30 -> 32 = 2 ^ k ->
     (IsImageSuitable (F := real_IEEE) atlas_2048_32 20 20 = true <->
      CalculateImageSizeOrder 20 20 = k)) /\
  (CalculateImageSizeOrder (F := real_IEEE) 20 20 < atlasOrder atlas_2048_32 ->
     IsImageSuitable (F := real_IEEE) atlas_2048_32 20 20 = false) /\
  CalculateImageSizeOrder (F := real_IEEE) 10 10 = 5 /\
  CalculateImageSizeOrder (F := real_IEEE) 32 32 = 5 /\
  IsImageSuitable (F := real_IEEE) atlas_2048_32 10 10
  = IsImageSuitable (F := real_IEEE) atlas_2048_32 32 32.
Proof.
  exact (IsImageSuitable_exact_order (L := real_IEEE_laws) atlas_2048_32 20 20).
Defined.

(** * The glyph key *)

Lemma Equal_true (lhs rhs : GlyphId) :
  Equal lhs rhs = true <-> Image lhs = Image rhs /\ Palette lhs = Palette rhs.
Proof.
  unfold Equal. rewrite andb_true_iff, !Z.eqb_eq. reflexivity.
Qed.

Lemma GlyphId_eq (lhs rhs : GlyphId) :
  Image lhs = Image rhs -> Palette lhs = Palette rhs -> lhs = rhs.
Proof. destruct lhs, rhs. cbn. intros -> ->. reflexivity. Qed.

(** C9: [GlyphId::Equal] is componentwise: it returns true exactly when
    the Image members and the Palette members are both equal; [Hash], a
    function of the key alone, gives equal keys equal hash values; and one
    image id with two different palettes makes two keys that are not
    [Equal]. *)
Theorem GlyphId_Equal_componentwise (lhs rhs : GlyphId) :
  (Equal lhs rhs = true <-> Image lhs = Image rhs /\ Palette lhs = Palette rhs) /\
  (Equal lhs rhs = true -> Hash lhs = Hash rhs) /\
  (Image lhs = Image rhs -> Palette lhs <> Palette rhs ->
     Equal lhs rhs = false /\ lhs <> rhs).
Proof.
  split; [apply Equal_true |]. split.
  - intros Heq. apply Equal_true in Heq as [Hi Hp].
    rewrite (GlyphId_eq lhs rhs Hi Hp). reflexivity.
  - intros _ Hp. split.
    + destruct (Equal lhs rhs) eqn:Heq; [| reflexivity].
      apply Equal_true in Heq as [_ Heq]. contradiction.
    + intros ->. apply Hp. reflexivity.
Qed.

(** Glyph image 65 under two palettes: the keys differ, and here so do
    their hash values. *)
Example GlyphId_two_palettes :
  Equal {| Image := 65; Palette := 0x0102030405060708 |}
        {| Image := 65; Palette := 0x0102030405060709 |} = false /\
  Hash {| Image := 65; Palette := 0x0102030405060708 |} = 1484563083
  /\ Hash {| Image := 65; Palette := 0x0102030405060709 |} = 1484563096.
Proof. vm_compute. repeat split. Qed.

Lemma GlyphId_bits_range (k : GlyphId) :
  GlyphId_wf k -> 0 <= GlyphId_bits k < 2 ^ 96.
Proof.
  unfold GlyphId_wf, is_uint32, is_uint64, GlyphId_bits. intros [Hi Hp].
  change (2 ^ 96) with (2 ^ 32 * 2 ^ 64). nia.
Qed.

Lemma GlyphId_bits_inj (k1 k2 : GlyphId) :
  GlyphId_wf k1 -> GlyphId_wf k2 -> GlyphId_bits k1 = GlyphId_bits k2 -> k1 = k2.
Proof.
  unfold GlyphId_wf, is_uint32, is_uint64, GlyphId_bits.
  intros [Hi1 Hp1] [Hi2 Hp2] Heq.
  assert (Hi : Image k1 = Image k2) by nia.
  apply GlyphId_eq; [exact Hi |]. rewrite Hi in Heq. lia.
Qed.

(** C5, counterexample: the 96-bit value 2^64 is the palette component of
    no key, so the palette component is not a 96-bit value. *)
Lemma Palette_not_96_bits : ~ holds_bits 96 Palette.
Proof.
  intros [_ Hall].
  destruct (Hall (2 ^ 64)) as (k & [_ Hp] & Heq).
  - split; [lia |]. apply Z.pow_lt_mono_r; lia.
  - unfold is_uint64 in Hp. lia.
Qed.

(** C5, as the code has it: the glyph key is the pair (image identifier,
    palette) whose palette component is a 64-bit value and whose image
    component is a 32-bit value; it is the key as a whole that carries 96
    bits, and distinct keys carry distinct bits. *)
Theorem GlyphId_key_widths :
  holds_bits 64 Palette /\
  holds_bits 32 Image /\
  holds_bits 96 GlyphId_bits /\
  (forall k1 k2 : GlyphId,
     GlyphId_wf k1 -> GlyphId_wf k2 -> GlyphId_bits k1 = GlyphId_bits k2 -> k1 = k2).
Proof.
  split; [| split; [| split]].
  - split.
    + intros k [_ Hp]. exact Hp.
    + intros v Hv. exists {| Image := 0; Palette := v |}.
      split; [| reflexivity]. split; [| exact Hv]. unfold is_uint32. cbn. lia.
  - split.
    + intros k [Hi _]. exact Hi.
    + intros v Hv. exists {| Image := v; Palette := 0 |}.
      split; [| reflexivity]. split; [exact Hv |]. unfold is_uint64. cbn. lia.
  - split.
    + apply GlyphId_bits_range.
    + intros v Hv. exists {| Image := v / 2 ^ 64; Palette := v mod 2 ^ 64 |}.
      split.
      * split; unfold is_uint32, is_uint64; cbn [Image Palette].
        -- split; [apply Z.div_pos; lia |].
           apply Z.div_lt_upper_bound; [lia |].
           change (2 ^ 64 * 2 ^ 32) with (2 ^ 96). lia.
        -- apply Z.mod_pos_bound. lia.
      * unfold GlyphId_bits. cbn [Image Palette].
        pose proof (Z.div_mod v (2 ^ 64)). lia.
  - apply GlyphId_bits_inj.
Qed.

(** * Further properties of the atlas *)

Section Further.
Context {F : IEEE}.

(** A caller allocating one slot after the other, for images of the given
    sizes; the first fault ends the run. *)
Fixpoint Allocate_each (a : Atlas) (sizes : list (Z * Z))
  : result (list CachedTextureInfo * Atlas) :=
  match sizes with
  | [] => Ok ([], a)
  | (actualWidth, actualHeight) :: sizes' =>
      r ← Allocate a actualWidth actualHeight;
      rs ← Allocate_each r.2 sizes';
      mret (r.1 :: rs.1, rs.2)
  end.

(** Two pixel rectangles [x, z) x [y, w) that share no pixel. *)
Definition rect_disjoint (b1 b2 : ivec4) : Prop :=
  GLSL.z b1 <= GLSL.x b2 \/ GLSL.z b2 <= GLSL.x b1 \/
  GLSL.w b1 <= GLSL.y b2 \/ GLSL.w b2 <= GLSL.y b1.


End Further.

Section Faults.
Context {F : IEEE}.

(** X1: the ways [Allocate] ends.  With an empty free list the assertion
    fails; with a free slot and a column count that is zero as an unsigned
    number, [slot / _cols] divides by zero; otherwise the call returns and
    the free list is one element shorter.  No other fault occurs. *)
Theorem Allocate_outcomes (a : Atlas) (actualWidth actualHeight : Z) :
  (_freeSlots a = [] ->
     Allocate a actualWidth actualHeight = Failed AssertionFailed) /\
  (_freeSlots a <> [] -> to_uint32 (_cols a) = 0 ->
     Allocate a actualWidth actualHeight = Failed DivisionByZero) /\
  (_freeSlots a <> [] -> to_uint32 (_cols a) <> 0 ->
     exists info a',
       Allocate a actualWidth actualHeight = Ok (info, a') /\
       _freeSlots a = _freeSlots a' ++ [slot info] /\
       GetFreeSlots a' = to_sint32 (vector_size (_freeSlots a) - 1)) /\
  Allocate a actualWidth actualHeight <> Failed LengthError.
Proof.
  split; [| split; [| split]].
  - intros Hnil. unfold Allocate. rewrite Hnil. reflexivity.
  - intros Hne Hc.
    destruct (_freeSlots a) as [| s rest] eqn:Hfree using rev_ind; [contradiction |].
    clear IHrest. unfold Allocate, vector_size, vector_back, vector_pop_back.
    rewrite Hfree, length_app, last_last, removelast_last. simpl length.
    replace (0 <? Z.of_nat (length rest + 1)) with true
      by (symmetry; apply Z.ltb_lt; lia).
    cbn [assert mbind result_bind].
    unfold GetSlotCoordinates, uint32_div. cbn [_cols with_freeSlots].
    rewrite Hc. reflexivity.
  - intros Hne Hc.
    destruct (_freeSlots a) as [| s rest] eqn:Hfree using rev_ind; [contradiction |].
    clear IHrest. eexists _, _. split.
    + apply (Allocate_back a _ _ s rest); [exact Hfree |].
      apply GetSlotCoordinates_returns. exact Hc.
    + split; [reflexivity |].
      unfold GetFreeSlots, vector_size. cbn [_freeSlots with_freeSlots].
      rewrite length_app. simpl length. f_equal. lia.
  - unfold Allocate, assert.
    destruct (0 <? vector_size (_freeSlots a)); [| discriminate].
    cbn [mbind result_bind].
    unfold GetSlotCoordinates, uint32_div, uint32_rem. cbn [_cols with_freeSlots].
    destruct (to_uint32 (_cols a) =? 0); discriminate.
Qed.

(** X2: [Free] undoes [Allocate].  Freeing the record an [Allocate] has
    just returned gives back the atlas exactly as it was before the
    allocation. *)
Theorem Allocate_then_Free_restores
  (a a' : Atlas) (actualWidth actualHeight : Z) (info : CachedTextureInfo) :
  Allocate a actualWidth actualHeight = Ok (info, a') ->
  Free a' info = Ok a.
Proof.
  intros Halloc.
  apply Allocate_Ok_inv in Halloc as (Hfree & -> & Hi & _).
  rewrite Free_returns by (symmetry; exact Hi).
  f_equal. unfold vector_push_back. cbn [_freeSlots with_freeSlots].
  destruct a as [i s aw ah fs c r]. cbn in *. rewrite Hfree. reflexivity.
Qed.

End Faults.

Lemma vector_resize_fill (v v' : list Z) (n : Z) :
  vector_resize v n = Ok v' ->
  exists u, vector_resize [] n = Ok u /\ fill_slots u = fill_slots v'.
Proof.
  unfold vector_resize.
  destruct (vector_max_size <? n); [discriminate |].
  intros [= <-]. eexists. split; [reflexivity |].
  rewrite !fill_slots_seq. f_equal. f_equal.
  rewrite !length_app, !length_take, !length_replicate. simpl length. lia.
Qed.

Lemma vector_resize_fault (v : list Z) (n : Z) (f : Fault) :
  vector_resize v n = Failed f -> vector_resize [] n = Failed f.
Proof.
  unfold vector_resize. destruct (vector_max_size <? n); [| discriminate].
  intros H. exact H.
Qed.

(** X3: [Initialise] starts from scratch.  Its outcome depends on the
    atlas's index and slot edge and on the two arguments only: whatever the
    free list held before — slots still handed out included — all cells of
    the grid are free again afterwards. *)
Theorem Initialise_forgets (a : Atlas) (atlasWidth atlasHeight : Z) :
  Initialise a atlasWidth atlasHeight
  = Initialise (Atlas_new (_index a) (_imageSize a)) atlasWidth atlasHeight.
Proof.
  unfold Initialise. cbn [_imageSize _index _freeSlots Atlas_new].
  destruct (sint32_div atlasWidth (_imageSize a)) as [cols | f]; [| reflexivity].
  cbn [mbind result_bind].
  destruct (sint32_div atlasHeight (_imageSize a)) as [rows | f]; [| reflexivity].
  cbn [mbind result_bind].
  destruct (vector_resize (_freeSlots a) (to_size_t (sint32_mul cols rows)))
    as [v | f] eqn:Hv.
  - apply vector_resize_fill in Hv as (u & -> & Hfill).
    cbn [mbind result_bind mret result_ret]. rewrite Hfill. reflexivity.
  - apply vector_resize_fault in Hv. rewrite Hv. reflexivity.
Qed.

(** X4: the ways [Initialise] ends, for [sint32] arguments.  A zero slot
    edge divides by zero; a slot edge of -1 with a width or height of
    [INT32_MIN] overflows the division; otherwise a grid whose cell count,
    as the [sint32] product the source computes, is negative asks [resize]
    for more than a vector can hold; otherwise the call returns with that
    many free slots. *)
Theorem Initialise_outcomes (a : Atlas) (atlasWidth atlasHeight : Z) :
  let cells := sint32_mul (to_sint32 (Z.quot atlasWidth (_imageSize a)))
                          (to_sint32 (Z.quot atlasHeight (_imageSize a))) in
  let overflows := _imageSize a = -1 /\
                   (atlasWidth = - 2 ^ 31 \/ atlasHeight = - 2 ^ 31) in
  (_imageSize a = 0 ->
     Initialise a atlasWidth atlasHeight = Failed DivisionByZero) /\
  (overflows ->
     Initialise a atlasWidth atlasHeight = Failed DivisionOverflow) /\
  (_imageSize a <> 0 -> ~ overflows -> cells < 0 ->
     Initialise a atlasWidth atlasHeight = Failed LengthError) /\
  (_imageSize a <> 0 -> ~ overflows -> 0 <= cells ->
     exists a', Initialise a atlasWidth atlasHeight = Ok a' /\
                GetFreeSlots a' = cells /\
                _freeSlots a' = Z.of_nat <$> seq 0 (Z.to_nat cells)).
Proof.
  intros cells overflows.
  assert (Hcells : is_sint32 cells) by apply to_sint32_range.
  unfold is_sint32 in Hcells.
  assert (Hdivs : _imageSize a <> 0 -> ~ overflows ->
                  sint32_div atlasWidth (_imageSize a)
                  = Ok (to_sint32 (Z.quot atlasWidth (_imageSize a))) /\
                  sint32_div atlasHeight (_imageSize a)
                  = Ok (to_sint32 (Z.quot atlasHeight (_imageSize a)))).
  { intros Hs Hno. unfold overflows in Hno.
    split; apply sint32_div_returns; try exact Hs; unfold sint32_div_overflows.
    - destruct (atlasWidth =? - 2 ^ 31) eqn:Ha; [| reflexivity].
      destruct (_imageSize a =? -1) eqn:Hb; [| reflexivity].
      apply Z.eqb_eq in Ha, Hb. exfalso. apply Hno. auto.
    - destruct (atlasHeight =? - 2 ^ 31) eqn:Ha; [| reflexivity].
      destruct (_imageSize a =? -1) eqn:Hb; [| reflexivity].
      apply Z.eqb_eq in Ha, Hb. exfalso. apply Hno. auto. }
  split; [| split; [| split]].
  - intros Hs. unfold Initialise, sint32_div. rewrite Hs. reflexivity.
  - intros [Hs Hov]. unfold Initialise.
    destruct (sint32_div atlasWidth (_imageSize a)) as [c | f] eqn:Hdw.
    + cbn [mbind result_bind].
      apply sint32_div_Ok in Hdw as (_ & Hnow & _).
      assert (Hh : atlasHeight = - 2 ^ 31).
      { destruct Hov as [Hw | Hh]; [| exact Hh]. exfalso.
        unfold sint32_div_overflows in Hnow. rewrite Hs, Hw in Hnow.
        discriminate Hnow. }
      unfold sint32_div. rewrite Hs, Hh. reflexivity.
    + unfold sint32_div in Hdw. rewrite Hs in Hdw.
      change (-1 =? 0) with false in Hdw.
      destruct (sint32_div_overflows atlasWidth (-1));
        [injection Hdw as <-; reflexivity | discriminate].
  - intros Hs Hno Hneg. destruct (Hdivs Hs Hno) as [Hdw Hdh].
    unfold Initialise. rewrite Hdw. cbn [mbind result_bind].
    rewrite Hdh. cbn [mbind result_bind]. fold cells. unfold vector_resize.
    assert (Hbig : vector_max_size < to_size_t cells).
    { unfold to_size_t, vector_max_size.
      assert (cells mod 2 ^ 64 = cells + 2 ^ 64).
      { symmetry. apply (Z.mod_unique_pos _ _ (-1)); lia. }
      lia. }
    apply Z.ltb_lt in Hbig. rewrite Hbig. reflexivity.
  - intros Hs Hno Hpos. destruct (Hdivs Hs Hno) as [Hdw Hdh].
    destruct (Initialise a atlasWidth atlasHeight) as [a' | f] eqn:Hinit.
    + exists a'. split; [reflexivity |].
      apply Initialise_Ok_inv in Hinit
        as (_ & _ & _ & _ & _ & Hc & Hr & _ & Hfree).
      rewrite Hc, Hr in Hfree. fold cells in Hfree.
      split; [| exact Hfree].
      unfold GetFreeSlots, vector_size.
      rewrite Hfree, length_fmap_seq, Z2Nat.id by exact Hpos.
      apply to_sint32_id. exact Hcells.
    + exfalso. revert Hinit. unfold Initialise. rewrite Hdw.
      cbn [mbind result_bind]. rewrite Hdh. cbn [mbind result_bind].
      fold cells. unfold vector_resize.
      assert (Hsmall : (vector_max_size <? to_size_t cells) = false).
      { apply Z.ltb_ge. rewrite to_size_t_id by lia. unfold vector_max_size. lia. }
      rewrite Hsmall. discriminate.
Qed.

(** X2, witness: the first allocation on the order-5 atlas, freed again. *)
Lemma Allocate_then_Free_restores_witness :
  Free (F := real_IEEE)
       (with_freeSlots atlas_2048_32 (Z.of_nat <$> seq 0 4095)) info_4095
  = Ok atlas_2048_32.
Proof.
  exact (Allocate_then_Free_restores (F := real_IEEE)
           atlas_2048_32 _ 20 20 info_4095 Allocate_2048_32).
Defined.

(** * Filling an atlas *)

Section Filling.
Context {F : IEEE}.

Lemma fmap_seq_snoc (m : nat) :
  Z.of_nat <$> seq 0 (S m) = (Z.of_nat <$> seq 0 m) ++ [Z.of_nat m].
Proof. rewrite seq_S, fmap_app. reflexivity. Qed.

(** On a free list [0 .. m-1], successive allocations hand out
    [m-1], [m-2], ... *)
Lemma Allocate_each_seq (sizes : list (Z * Z)) :
  forall (a : Atlas) (m : nat),
    to_uint32 (_cols a) <> 0 ->
    _freeSlots a = Z.of_nat <$> seq 0 m ->
    (length sizes <= m)%nat ->
    exists infos a',
      Allocate_each a sizes = Ok (infos, a') /\
      slot <$> infos
      = (fun i => Z.of_nat m - 1 - Z.of_nat i) <$> seq 0 (length sizes) /\
      _freeSlots a' = Z.of_nat <$> seq 0 (m - length sizes).
Proof.
  induction sizes as [| [w h] sizes IH]; intros a m Hc Hfree Hlen.
  - exists [], a. split; [reflexivity |]. split; [reflexivity |].
    rewrite Hfree. cbn [length]. rewrite Nat.sub_0_r. reflexivity.
  - destruct m as [| m]; [simpl in Hlen; lia |].
    rewrite fmap_seq_snoc in Hfree.
    pose proof (Allocate_back a w h (Z.of_nat m) _ _ Hfree
                  (GetSlotCoordinates_returns a _ w h Hc)) as Halloc.
    destruct (IH (with_freeSlots a (Z.of_nat <$> seq 0 m)) m)
      as (infos & a' & Heach & Hslots & Hfree').
    + exact Hc.
    + reflexivity.
    + simpl in Hlen. lia.
    + eexists _, _. cbn [Allocate_each]. rewrite Halloc.
      cbn [mbind result_bind fst snd]. rewrite Heach.
      cbn [mbind result_bind mret result_ret fst snd].
      split; [reflexivity |]. split.
      * cbn [length]. rewrite fmap_cons. cbn [slot].
        rewrite Hslots. cbn [seq fmap list_fmap]. f_equal; [lia |].
        rewrite <- fmap_S_seq, <- list_fmap_compose.
        apply list_fmap_ext. intros i j _. cbn. lia.
      * exact Hfree'.
Qed.

(** One allocation too many fails on the assertion. *)
Lemma Allocate_each_exhausted (sizes : list (Z * Z)) :
  forall (a : Atlas) (m : nat),
    ((0 < m)%nat -> to_uint32 (_cols a) <> 0) ->
    _freeSlots a = Z.of_nat <$> seq 0 m ->
    (m < length sizes)%nat ->
    Allocate_each a sizes = Failed AssertionFailed.
Proof.
  induction sizes as [| [w h] sizes IH]; intros a m Hc Hfree Hlen.
  - simpl in Hlen. lia.
  - destruct m as [| m].
    + cbn [Allocate_each]. unfold Allocate. rewrite Hfree. reflexivity.
    + assert (Hc' : to_uint32 (_cols a) <> 0) by (apply Hc; lia).
      rewrite fmap_seq_snoc in Hfree.
      pose proof (Allocate_back a w h (Z.of_nat m) _ _ Hfree
                    (GetSlotCoordinates_returns a _ w h Hc')) as Halloc.
      cbn [Allocate_each]. rewrite Halloc. cbn [mbind result_bind fst snd].
      rewrite (IH (with_freeSlots a (Z.of_nat <$> seq 0 m)) m).
      * reflexivity.
      * intros _. exact Hc'.
      * reflexivity.
      * simpl in Hlen. lia.
Qed.

(** X5: filling an atlas.  After [Initialise] has left [n] free slots, a
    run of at most [n] allocations returns, handing out the slot ids
    [n-1], [n-2], ... in this order — the last cell of the grid first —
    and lowering [GetFreeSlots] by the number of allocations; a run of
    more than [n] allocations fails on the assertion of [Allocate]. *)
Theorem Allocate_each_after_Initialise
  (a0 a : Atlas) (atlasWidth atlasHeight : Z) (sizes : list (Z * Z)) :
  Initialise a0 atlasWidth atlasHeight = Ok a ->
  (Z.of_nat (length sizes) <= GetFreeSlots a ->
     exists infos a',
       Allocate_each a sizes = Ok (infos, a') /\
       slot <$> infos
       = (fun i => GetFreeSlots a - 1 - Z.of_nat i) <$> seq 0 (length sizes) /\
       GetFreeSlots a' = GetFreeSlots a - Z.of_nat (length sizes)) /\
  (GetFreeSlots a < Z.of_nat (length sizes) ->
     Allocate_each a sizes = Failed AssertionFailed).
Proof.
  intros Hinit.
  pose proof (Initialise_cols_nonzero _ _ _ _ Hinit) as Hcols.
  apply Initialise_Ok_inv in Hinit as (_ & _ & _ & _ & _ & _ & _ & Hpos & Hfree).
  set (m := Z.to_nat (sint32_mul (_cols a) (_rows a))) in *.
  assert (Hm : Z.of_nat m < 2 ^ 31).
  { unfold m. rewrite Z2Nat.id by exact Hpos.
    pose proof (to_sint32_range (_cols a * _rows a)) as Hr.
    unfold is_sint32 in Hr. exact (proj2 Hr). }
  assert (Hcount : GetFreeSlots a = Z.of_nat m).
  { unfold GetFreeSlots, vector_size. rewrite Hfree, length_fmap_seq.
    apply to_sint32_id. unfold is_sint32. lia. }
  rewrite Hcount. split.
  - intros Hlen.
    destruct sizes as [| size sizes].
    + exists [], a. split; [reflexivity |]. split; [reflexivity |].
      cbn [length]. lia.
    + destruct (Allocate_each_seq (size :: sizes) a m)
        as (infos & a' & Heach & Hslots & Hfree').
      * apply Hcols. rewrite Hfree. destruct m; [simpl in Hlen; lia | discriminate].
      * exact Hfree.
      * lia.
      * exists infos, a'. split; [exact Heach |]. split; [exact Hslots |].
        unfold GetFreeSlots, vector_size. rewrite Hfree', length_fmap_seq.
        rewrite to_sint32_id by (unfold is_sint32; lia). lia.
  - intros Hlen. apply (Allocate_each_exhausted sizes a m).
    + intros Hpos'. apply Hcols. rewrite Hfree. destruct m; [lia | discriminate].
    + exact Hfree.
    + lia.
Qed.

End Filling.

(** X5, witness: two allocations on the order-5 atlas. *)
Lemma Allocate_each_after_Initialise_witness :
  (Z.of_nat (length [(20, 20); (10, 10)]) <= GetFreeSlots atlas_2048_32 ->
     exists infos a',
       Allocate_each (F := real_IEEE) atlas_2048_32 [(20, 20); (10, 10)]
       = Ok (infos, a') /\
       slot <$> infos
       = (fun i => GetFreeSlots atlas_2048_32 - 1 - Z.of_nat i)
           <$> seq 0 (length [(20, 20); (10, 10)]) /\
       GetFreeSlots a'
       = GetFreeSlots atlas_2048_32 - Z.of_nat (length [(20, 20); (10, 10)])) /\
  (GetFreeSlots atlas_2048_32 < Z.of_nat (length [(20, 20); (10, 10)]) ->
     Allocate_each (F := real_IEEE) atlas_2048_32 [(20, 20); (10, 10)]
     = Failed AssertionFailed).
Proof.
  exact (Allocate_each_after_Initialise (F := real_IEEE)
           (Atlas_new 0 32) atlas_2048_32 2048 2048 [(20, 20); (10, 10)]
           Initialise_atlas_2048_32).
Defined.

(** * The pixel rectangles of slots *)

Section Rectangles.
Context {F : IEEE}.

(** [GetSlotCoordinates] without wrapping: the slot is in the grid and
    the far corner fits a [sint32]. *)
Lemma GetSlotCoordinates_exact (a : Atlas) (s w h : Z) :
  Atlas_ok a -> 0 <= s < _cols a * _rows a ->
  - 2 ^ 31 <= w -> _imageSize a * (s mod _cols a) + w <= INT32_MAX ->
  - 2 ^ 31 <= h -> _imageSize a * (s / _cols a) + h <= INT32_MAX ->
  GetSlotCoordinates a s w h
  = Ok (GLSL.Build_Vec4
          (_imageSize a * (s mod _cols a))
          (_imageSize a * (s / _cols a))
          (_imageSize a * (s mod _cols a) + w)
          (_imageSize a * (s / _cols a) + h)).
Proof.
  intros Hok Hslot Hw1 Hw2 Hh1 Hh2.
  destruct (slot_in_grid a s Hok Hslot) as (Hc & Hmod & Hdiv & Hx & Hy).
  pose proof (ok_imageSize a Hok) as Hs.
  pose proof (ok_atlasWidth a Hok) as Haw.
  pose proof (ok_atlasHeight a Hok) as Hah.
  assert (Hu : to_uint32 (_cols a) = _cols a).
  { apply to_uint32_id. unfold is_uint32, INT32_MAX in *. lia. }
  rewrite GetSlotCoordinates_returns by lia.
  rewrite Hu. unfold sint32_add, sint32_mul.
  rewrite (to_sint32_id (s mod _cols a)) by (unfold is_sint32, INT32_MAX in *; lia).
  rewrite (to_sint32_id (s / _cols a)) by (unfold is_sint32, INT32_MAX in *; nia).
  rewrite (to_sint32_id (_imageSize a * (s mod _cols a)))
    by (unfold is_sint32, INT32_MAX in *; nia).
  rewrite (to_sint32_id (_imageSize a * (s / _cols a)))
    by (unfold is_sint32, INT32_MAX in *; nia).
  rewrite (to_sint32_id (_imageSize a * (s mod _cols a) + w))
    by (unfold is_sint32, INT32_MAX in *; nia).
  rewrite (to_sint32_id (_imageSize a * (s / _cols a) + h))
    by (unfold is_sint32, INT32_MAX in *; nia).
  reflexivity.
Qed.

(** An image that fits the slot edge fits the [sint32] arithmetic. *)
Lemma GetSlotCoordinates_fitting (a : Atlas) (s w h : Z) :
  Atlas_ok a -> 0 <= s < _cols a * _rows a ->
  0 <= w <= _imageSize a -> 0 <= h <= _imageSize a ->
  GetSlotCoordinates a s w h
  = Ok (GLSL.Build_Vec4
          (_imageSize a * (s mod _cols a))
          (_imageSize a * (s / _cols a))
          (_imageSize a * (s mod _cols a) + w)
          (_imageSize a * (s / _cols a) + h)).
Proof.
  intros Hok Hslot Hw Hh.
  destruct (slot_in_grid a s Hok Hslot) as (Hc & Hmod & Hdiv & Hx & Hy).
  pose proof (ok_atlasWidth a Hok) as Haw.
  pose proof (ok_atlasHeight a Hok) as Hah.
  apply GetSlotCoordinates_exact; try assumption; lia.
Qed.

(** The rectangles of two different grid cells share no pixel as long as
    each stays inside its cell. *)
Lemma cells_disjoint (edge cols s1 s2 w1 h1 w2 h2 : Z) :
  0 < edge -> 0 < cols -> 0 <= s1 -> 0 <= s2 -> s1 <> s2 ->
  0 <= w1 <= edge -> 0 <= h1 <= edge -> 0 <= w2 <= edge -> 0 <= h2 <= edge ->
  rect_disjoint
    (GLSL.Build_Vec4 (edge * (s1 mod cols)) (edge * (s1 / cols))
                     (edge * (s1 mod cols) + w1) (edge * (s1 / cols) + h1))
    (GLSL.Build_Vec4 (edge * (s2 mod cols)) (edge * (s2 / cols))
                     (edge * (s2 mod cols) + w2) (edge * (s2 / cols) + h2)).
Proof.
  intros He Hc Hs1 Hs2 Hne Hw1 Hh1 Hw2 Hh2. unfold rect_disjoint.
  cbn [GLSL.x GLSL.y GLSL.z GLSL.w].
  pose proof (Z.div_mod s1 cols ltac:(lia)) as E1.
  pose proof (Z.div_mod s2 cols ltac:(lia)) as E2.
  destruct (Z.lt_trichotomy (s1 mod cols) (s2 mod cols)) as [Hlt | [Heq | Hgt]].
  - left. nia.
  - destruct (Z.lt_trichotomy (s1 / cols) (s2 / cols)) as [Hlt | [Heq' | Hgt]].
    + right. right. left. nia.
    + exfalso. apply Hne. rewrite E1, E2, Heq, Heq'. reflexivity.
    + right. right. right. nia.
  - right. left. nia.
Qed.

(** What an [Allocate] that returns on a sound atlas has computed, for an
    image that fits the slot edge. *)
Lemma Allocate_bounds_exact
  (a a' : Atlas) (w h : Z) (info : CachedTextureInfo) :
  Atlas_ok a -> 0 <= w <= _imageSize a -> 0 <= h <= _imageSize a ->
  Allocate a w h = Ok (info, a') ->
  0 <= slot info < _cols a * _rows a /\
  bounds info
  = GLSL.Build_Vec4
      (_imageSize a * (slot info mod _cols a))
      (_imageSize a * (slot info / _cols a))
      (_imageSize a * (slot info mod _cols a) + w)
      (_imageSize a * (slot info / _cols a) + h).
Proof.
  intros Hok Hw Hh Halloc.
  destruct (Allocate_ok a a' w h info Hok Halloc) as [_ Hslot].
  split; [exact Hslot |].
  apply Allocate_Ok_inv in Halloc as (_ & _ & _ & Hb & _).
  rewrite (GetSlotCoordinates_fitting a _ w h Hok Hslot Hw Hh) in Hb.
  injection Hb as <-. reflexivity.
Qed.


(** X7: the slot id can be read back from the bounds.  Under the
    conditions of X6, [slot = (y / imageSize) * cols + x / imageSize], so
    records with the same top-left corner have the same slot. *)
Theorem slot_of_bounds
  (a a' : Atlas) (actualWidth actualHeight : Z) (info : CachedTextureInfo) :
  Atlas_ok a ->
  0 <= actualWidth <= _imageSize a ->
  0 <= actualHeight <= _imageSize a ->
  Allocate a actualWidth actualHeight = Ok (info, a') ->
  slot info
  = (GLSL.y (bounds info) / _imageSize a) * _cols a
    + GLSL.x (bounds info) / _imageSize a.
Proof.
  intros Hok Hw Hh Halloc.
  destruct (Allocate_bounds_exact a a' _ _ info Hok Hw Hh Halloc) as [Hslot Hb].
  destruct (slot_in_grid a _ Hok Hslot) as (Hc & _).
  pose proof (ok_imageSize a Hok) as Hs.
  rewrite Hb. cbn [GLSL.x GLSL.y].
  rewrite !(Z.mul_comm (_imageSize a)), !Z.div_mul by lia.
  pose proof (Z.div_mod (slot info) (_cols a) ltac:(lia)). lia.
Qed.

(** X8: different slots, different pixels.  On an atlas in the state
    [Initialise] leaves, the rectangles [GetSlotCoordinates] computes for
    two different slot ids of the grid, for images no larger than the slot
    edge, share no pixel. *)
Theorem distinct_slots_disjoint
  (a : Atlas) (s1 s2 w1 h1 w2 h2 : Z) (b1 b2 : ivec4) :
  Atlas_ok a ->
  0 <= s1 < _cols a * _rows a -> 0 <= s2 < _cols a * _rows a -> s1 <> s2 ->
  0 <= w1 <= _imageSize a -> 0 <= h1 <= _imageSize a ->
  0 <= w2 <= _imageSize a -> 0 <= h2 <= _imageSize a ->
  GetSlotCoordinates a s1 w1 h1 = Ok b1 ->
  GetSlotCoordinates a s2 w2 h2 = Ok b2 ->
  rect_disjoint b1 b2.
Proof.
  intros Hok Hs1 Hs2 Hne Hw1 Hh1 Hw2 Hh2 Hb1 Hb2.
  rewrite (GetSlotCoordinates_fitting a s1 w1 h1 Hok Hs1 Hw1 Hh1) in Hb1.
  rewrite (GetSlotCoordinates_fitting a s2 w2 h2 Hok Hs2 Hw2 Hh2) in Hb2.
  injection Hb1 as <-. injection Hb2 as <-.
  destruct (slot_in_grid a s1 Hok Hs1) as (Hc & _).
  apply cells_disjoint; try assumption; try lia.
  apply (ok_imageSize a Hok).
Qed.

(** X9: [Allocate] does not look at the image size.  An image wider than
    the slot edge is given a slot all the same (as long as the far corner
    fits a [sint32]), and its rectangle then runs past the right edge of
    the slot square. *)
Theorem Allocate_oversized (a : Atlas) (actualWidth actualHeight : Z) :
  Atlas_ok a ->
  _freeSlots a <> [] ->
  _imageSize a < actualWidth <= INT32_MAX - _atlasWidth a ->
  0 <= actualHeight <= _imageSize a ->
  exists info a',
    Allocate a actualWidth actualHeight = Ok (info, a') /\
    GLSL.z (bounds info) = GLSL.x (bounds info) + actualWidth /\
    GLSL.x (bounds info) + _imageSize a < GLSL.z (bounds info).
Proof.
  intros Hok Hne Hw Hh.
  destruct (Allocate_returns a actualWidth actualHeight Hok Hne)
    as (info & a' & Halloc).
  exists info, a'. split; [exact Halloc |].
  destruct (Allocate_ok a a' _ _ info Hok Halloc) as [_ Hslot].
  destruct (slot_in_grid a _ Hok Hslot) as (Hc & Hmod & Hdiv & Hx & Hy).
  pose proof (ok_imageSize a Hok) as Hs.
  pose proof (ok_atlasHeight a Hok) as Hah.
  apply Allocate_Ok_inv in Halloc as (_ & _ & _ & Hb & _).
  rewrite GetSlotCoordinates_exact in Hb; try assumption; try lia.
  injection Hb as <-. cbn [GLSL.x GLSL.z]. lia.
Qed.

End Rectangles.

(** * Call sequences: counting and placing *)

Section Placing.
Context {F : IEEE}.



Lemma steps_count (t0 t : Tracked) (calls : list Call) :
  steps t0 calls t ->
  (length (_freeSlots (atlas t)) + length (live t)
   = length (_freeSlots (atlas t0)) + length (live t0))%nat.
Proof.
  intros Hsteps. induction Hsteps as [t | t calls t' c t'' _ IH Hstep].
  - reflexivity.
  - rewrite <- IH. clear IH.
    destruct Hstep as [t' w h info a' Halloc | t' info l1 l2 a' Hlive Hfree].
    + apply Allocate_Ok_inv in Halloc as (Hfs & _).
      cbn [atlas live]. rewrite Hfs, length_app. simpl length. lia.
    + apply Free_Ok_inv in Hfree as [_ ->].
      cbn [atlas live _freeSlots with_freeSlots]. unfold vector_push_back.
      rewrite Hlive, !length_app. simpl length. lia.
Qed.

(** X10: nothing is lost.  Along every sequence of [Allocate] calls that
    return and of [Free] calls on live records, starting from the state
    [Initialise] leaves, the number [GetFreeSlots] reports plus the number
    of live records is the number of slots [Initialise] created. *)
Theorem free_plus_live_is_capacity
  (a0 a : Atlas) (atlasWidth atlasHeight : Z) (calls : list Call) (t : Tracked) :
  Initialise a0 atlasWidth atlasHeight = Ok a ->
  steps (tracked_init a) calls t ->
  GetFreeSlots (atlas t) + Z.of_nat (length (live t)) = GetFreeSlots a.
Proof.
  intros Hinit Hsteps.
  apply steps_count in Hsteps. cbn [tracked_init atlas live length] in Hsteps.
  apply Initialise_Ok_inv in Hinit as (_ & _ & _ & _ & _ & _ & _ & Hpos & Hfree).
  assert (Hn : Z.of_nat (length (_freeSlots a)) < 2 ^ 31).
  { rewrite Hfree, length_fmap_seq, Z2Nat.id by exact Hpos.
    pose proof (to_sint32_range (_cols a * _rows a)) as Hr.
    unfold is_sint32 in Hr. exact (proj2 Hr). }
  unfold GetFreeSlots, vector_size.
  rewrite !to_sint32_id by (unfold is_sint32; lia). lia.
Qed.




End Placing.

(** Two allocations on the order-5 atlas, both live. *)
Lemma steps_two_live :
  exists t : Tracked (F := real_IEEE),
    steps (tracked_init atlas_2048_32)
          [CallAllocate 20 20; CallAllocate 10 10] t /\
    slot <$> live t = [4094; 4095].
Proof.
  set (a1 := with_freeSlots atlas_2048_32 (Z.of_nat <$> seq 0 4095)).
  assert (Hfree : _freeSlots a1 = (Z.of_nat <$> seq 0 4094) ++ [4094]).
  { vm_compute. reflexivity. }
  assert (Hc : to_uint32 (_cols a1) <> 0) by discriminate.
  pose proof (Allocate_back (F := real_IEEE) a1 10 10 4094
                (Z.of_nat <$> seq 0 4094) _ Hfree
                (GetSlotCoordinates_returns a1 4094 10 10 Hc)) as Halloc.
  eexists. split.
  - change [CallAllocate 20 20; CallAllocate 10 10]
      with (([] ++ [CallAllocate 20 20]) ++ [CallAllocate 10 10]).
    eapply steps_snoc.
    + eapply steps_snoc; [apply steps_nil |].
      apply step_Allocate. exact Allocate_2048_32.
    + apply step_Allocate. exact Halloc.
  - reflexivity.
Qed.

(** X10, witness: two live records on the order-5 atlas. *)
Lemma free_plus_live_is_capacity_witness :
  exists t : Tracked (F := real_IEEE),
    slot <$> live t = [4094; 4095] /\
    GetFreeSlots (atlas t) + Z.of_nat (length (live t)) = GetFreeSlots atlas_2048_32.
Proof.
  destruct steps_two_live as (t & Hsteps & Hlive).
  exists t. split; [exact Hlive |].
  exact (free_plus_live_is_capacity (F := real_IEEE)
           (Atlas_new 0 32) atlas_2048_32 2048 2048 _ t
           Initialise_atlas_2048_32 Hsteps).
Defined.




(** X7, witness: slot 4095 read back from the corner (2016, 2016). *)
Lemma slot_of_bounds_witness :
  slot info_4095
  = (GLSL.y (bounds info_4095) / _imageSize atlas_2048_32) * _cols atlas_2048_32
    + GLSL.x (bounds info_4095) / _imageSize atlas_2048_32.
Proof.
  apply (slot_of_bounds (F := real_IEEE) atlas_2048_32
           (with_freeSlots atlas_2048_32 (Z.of_nat <$> seq 0 4095)) 20 20 info_4095).
  - exact Atlas_ok_2048_32.
  - change (0 <= 20 <= 32). lia.
  - change (0 <= 20 <= 32). lia.
  - exact Allocate_2048_32.
Defined.

(** X8, witness: the neighbouring slots 4095 and 4094. *)
Lemma distinct_slots_disjoint_witness :
  rect_disjoint (GLSL.Build_Vec4 2016 2016 2036 2036)
                (GLSL.Build_Vec4 1984 2016 1994 2026).
Proof.
  apply (distinct_slots_disjoint atlas_2048_32 4095 4094 20 20 10 10).
  - exact Atlas_ok_2048_32.
  - change (0 <= 4095 < 4096). lia.
  - change (0 <= 4094 < 4096). lia.
  - discriminate.
  - change (0 <= 20 <= 32). lia.
  - change (0 <= 20 <= 32). lia.
  - change (0 <= 10 <= 32). lia.
  - change (0 <= 10 <= 32). lia.
  - reflexivity.
  - reflexivity.
Defined.

(** X9, witness: a 40 x 20 image on the order-5 atlas. *)
Lemma Allocate_oversized_witness :
  exists (info : CachedTextureInfo (F := real_IEEE)) (a' : Atlas),
    Allocate atlas_2048_32 40 20 = Ok (info, a') /\
    GLSL.z (bounds info) = GLSL.x (bounds info) + 40 /\
    GLSL.x (bounds info) + _imageSize atlas_2048_32 < GLSL.z (bounds info).
Proof.
  apply (Allocate_oversized (F := real_IEEE) atlas_2048_32 40 20).
  - exact Atlas_ok_2048_32.
  - rewrite freeSlots_2048_32. intros Hnil. apply app_eq_nil in Hnil as [_ Hnil].
    discriminate Hnil.
  - change (32 < 40 <= INT32_MAX - 2048). unfold INT32_MAX. lia.
  - change (0 <= 20 <= 32). lia.
Defined.

(** * More on size-class orders *)

Section MoreOrders.
Context {F : IEEE} {L : IEEE_laws F}.

(** X12: the order grows with the image.  For images whose larger
    dimension is between 1 and 2048, a larger larger-dimension never gives
    a smaller order. *)
Theorem CalculateImageSizeOrder_monotone (w h w' h' : Z) :
  1 <= Z.max w h -> Z.max w h <= Z.max w' h' -> Z.max w' h' <= 2048 ->
  CalculateImageSizeOrder w h <= CalculateImageSizeOrder w' h'.
Proof.
  intros H1 Hle H2.
  rewrite !CalculateImageSizeOrder_log2_up by lia.
  apply Z.log2_up_le_mono. unfold TEXTURE_CACHE_SMALLEST_SLOT. lia.
Qed.

(** X13: the slot of the computed order holds the image, tightly.  For an
    image whose larger dimension is between 1 and 2048 the order [o] is
    between 5 and 11, both dimensions are at most [2^o], and an image
    larger than 32 is larger than [2^(o-1)]. *)
Theorem CalculateImageSizeOrder_fits (w h : Z) :
  1 <= Z.max w h <= 2048 ->
  5 <= CalculateImageSizeOrder w h <= 11 /\
  w <= 2 ^ CalculateImageSizeOrder w h /\
  h <= 2 ^ CalculateImageSizeOrder w h /\
  (32 < Z.max w h -> 2 ^ (CalculateImageSizeOrder w h - 1) < Z.max w h).
Proof.
  intros Hmax. rewrite CalculateImageSizeOrder_log2_up by exact Hmax.
  unfold TEXTURE_CACHE_SMALLEST_SLOT.
  set (m := Z.max (Z.max w h) 32).
  assert (Hm : 32 <= m <= 2048) by (unfold m; lia).
  pose proof (Z.log2_up_le_mono 32 m ltac:(lia)) as H5.
  pose proof (Z.log2_up_le_mono m 2048 ltac:(lia)) as H11.
  change (Z.log2_up 32) with 5 in H5. change (Z.log2_up 2048) with 11 in H11.
  pose proof (Z.log2_up_spec m ltac:(lia)) as [Hlo Hhi].
  replace (Z.pred (Z.log2_up m)) with (Z.log2_up m - 1) in Hlo by lia.
  assert (Hwh : w <= m /\ h <= m) by (unfold m; lia).
  split; [lia |]. split; [lia |]. split; [lia |].
  intros Hbig. assert (Heq : m = Z.max w h) by (unfold m; lia). lia.
Qed.

(** X14: small images share the smallest order.  Whenever neither
    dimension exceeds 32 — zero and negative sizes included — the order is
    5: the size is raised to [TEXTURE_CACHE_SMALLEST_SLOT] before the
    logarithm is taken. *)
Theorem CalculateImageSizeOrder_small (w h : Z) :
  Z.max w h <= TEXTURE_CACHE_SMALLEST_SLOT -> CalculateImageSizeOrder w h = 5.
Proof.
  unfold TEXTURE_CACHE_SMALLEST_SLOT, CalculateImageSizeOrder. intros Hmax.
  unfold TEXTURE_CACHE_SMALLEST_SLOT.
  destruct (Z.max w h <? 32) eqn:Hlt.
  - apply (ceil_log2f_order 32). lia.
  - apply Z.ltb_ge in Hlt. replace (Z.max w h) with 32 by lia.
    apply (ceil_log2f_order 32). lia.
Qed.

(** X15: what [IsImageSuitable] accepts.  For an atlas whose slot edge is
    [2^k] and an image whose larger dimension is between 1 and 2048, the
    image is suitable exactly when [max(width, height, 32)] is at most the
    slot edge and more than half of it; a suitable image is no larger than
    the slot edge in either direction; and an atlas with a slot edge below
    32 is suitable for no image. *)
Theorem IsImageSuitable_fits (a : Atlas) (k w h : Z) :
  0 <= k <= 30 -> _imageSize a = 2 ^ k -> 1 <= Z.max w h <= 2048 ->
  (IsImageSuitable a w h = true <->
   2 ^ k < 2 * Z.max (Z.max w h) 32 /\ Z.max (Z.max w h) 32 <= 2 ^ k) /\
  (IsImageSuitable a w h = true -> w <= _imageSize a /\ h <= _imageSize a) /\
  (k < 5 -> IsImageSuitable a w h = false).
Proof.
  intros Hk Hsize Hmax.
  assert (Hiff : IsImageSuitable a w h = true <->
                 2 ^ k < 2 * Z.max (Z.max w h) 32 /\ Z.max (Z.max w h) 32 <= 2 ^ k).
  { unfold IsImageSuitable. fold (atlasOrder a).
    rewrite (atlasOrder_pow2 a k Hk Hsize), Z.eqb_eq.
    rewrite CalculateImageSizeOrder_log2_up by exact Hmax.
    unfold TEXTURE_CACHE_SMALLEST_SLOT.
    set (m := Z.max (Z.max w h) 32).
    assert (Hm : 32 <= m) by (unfold m; lia).
    pose proof (Z.log2_up_le_mono 32 m ltac:(lia)) as H5.
    change (Z.log2_up 32) with 5 in H5.
    pose proof (Z.log2_up_spec m ltac:(lia)) as [Hlo Hhi].
    split.
    - intros <-. split; [| exact Hhi].
      replace (Z.log2_up m) with (Z.succ (Z.pred (Z.log2_up m))) at 1 by lia.
      rewrite Z.pow_succ_r by lia. lia.
    - intros [H1 H2].
      assert (Hk1 : 0 < k).
      { destruct (Z.eq_dec k 0) as [-> | Hne]; [| lia]. simpl in H2. lia. }
      apply Z.log2_up_unique; [exact Hk1 |]. split; [| exact H2].
      replace k with (Z.succ (Z.pred k)) in H1 at 1 by lia.
      rewrite Z.pow_succ_r in H1 by lia. lia. }
  split; [exact Hiff |]. split.
  - intros Hsuit. apply Hiff in Hsuit as [_ Hle]. rewrite Hsize. lia.
  - intros Hlt. apply not_true_is_false. intros Hsuit.
    apply Hiff in Hsuit as [_ Hle].
    assert (2 ^ k <= 2 ^ 4) by (apply Z.pow_le_mono_r; lia).
    change (2 ^ 4) with 16 in *. lia.
Qed.

End MoreOrders.

(** X12, witness: a 20 x 20 and a 100 x 60 image in exact arithmetic. *)
Lemma CalculateImageSizeOrder_monotone_witness :
  CalculateImageSizeOrder (F := real_IEEE) 20 20
  <= CalculateImageSizeOrder (F := real_IEEE) 100 60.
Proof.
  apply (CalculateImageSizeOrder_monotone (L := real_IEEE_laws) 20 20 100 60).
  - change (1 <= 20). lia.
  - change (20 <= 100). lia.
  - change (100 <= 2048). lia.
Defined.

(** X13, witness: a 100 x 60 image in exact arithmetic. *)
Lemma CalculateImageSizeOrder_fits_witness :
  5 <= CalculateImageSizeOrder (F := real_IEEE) 100 60 <= 11 /\
  100 <= 2 ^ CalculateImageSizeOrder (F := real_IEEE) 100 60 /\
  60 <= 2 ^ CalculateImageSizeOrder (F := real_IEEE) 100 60 /\
  (32 < Z.max 100 60 ->
   2 ^ (CalculateImageSizeOrder (F := real_IEEE) 100 60 - 1) < Z.max 100 60).
Proof.
  apply (CalculateImageSizeOrder_fits (L := real_IEEE_laws) 100 60).
  change (1 <= 100 <= 2048). lia.
Defined.

(** X14, witness: an image of size 0 x -3 in exact arithmetic. *)
Lemma CalculateImageSizeOrder_small_witness :
  CalculateImageSizeOrder (F := real_IEEE) 0 (-3) = 5.
Proof.
  apply (CalculateImageSizeOrder_small (L := real_IEEE_laws) 0 (-3)).
  change (0 <= 32). lia.
Defined.

(** X15, witness: a 20 x 20 image and the order-5 atlas in exact
    arithmetic. *)
Lemma IsImageSuitable_fits_witness :
  (IsImageSuitable (F := real_IEEE) atlas_2048_32 20 20 = true <->
   2 ^ 5 < 2 * Z.max (Z.max 20 20) 32 /\ Z.max (Z.max 20 20) 32 <= 2 ^ 5) /\
  (IsImageSuitable (F := real_IEEE) atlas_2048_32 20 20 = true ->
   20 <= _imageSize atlas_2048_32 /\ 20 <= _imageSize atlas_2048_32) /\
  (5 < 5 -> IsImageSuitable (F := real_IEEE) atlas_2048_32 20 20 = false).
Proof.
  apply (IsImageSuitable_fits (L := real_IEEE_laws) atlas_2048_32 5 20 20).
  - lia.
  - reflexivity.
  - change (1 <= 20 <= 2048). lia.
Defined.

(** * More on the glyph key *)

(** For keys within the member types the 64-bit additions of [Hash] never
    wrap; only the 32-bit product [Image * 7] does. *)
Lemma Hash_value (k : GlyphId) :
  GlyphId_wf k ->
  Hash k = (Image k * 7) mod 2 ^ 32
           + (Palette k mod 2 ^ 32) * 13 + (Palette k / 2 ^ 32) * 23.
Proof.
  unfold GlyphId_wf, is_uint32, is_uint64. intros [Hi Hp].
  unfold Hash, to_size_t, to_uint64, to_uint32.
  change 0xFFFFFFFF with (Z.ones 32).
  rewrite Z.land_ones, Z.shiftr_div_pow2 by lia.
  pose proof (Z.mod_pos_bound (Image k * 7) (2 ^ 32) ltac:(lia)) as H1.
  pose proof (Z.mod_pos_bound (Palette k) (2 ^ 32) ltac:(lia)) as H2.
  assert (H3 : 0 <= Palette k / 2 ^ 32 < 2 ^ 32).
  { split; [apply Z.div_pos; lia |]. apply Z.div_lt_upper_bound; lia. }
  rewrite (Z.mod_small (Image k * 7 mod 2 ^ 32) (2 ^ 64)) by lia.
  rewrite (Z.mod_small (Palette k mod 2 ^ 32 * 13) (2 ^ 64)) by lia.
  rewrite (Z.mod_small (Palette k / 2 ^ 32 * 23) (2 ^ 64)) by lia.
  rewrite (Z.mod_small (Image k * 7 mod 2 ^ 32 + Palette k mod 2 ^ 32 * 13) (2 ^ 64))
    by lia.
  apply Z.mod_small. lia.
Qed.

(** X16: the hash of a key.  For a key within its member types, [Hash] is
    [(Image * 7 mod 2^32) + 13 * (low half of Palette) + 23 * (high half
    of Palette)] as a plain sum — the [size_t] additions never wrap — and
    so is below [37 * 2^32]: the upper 26 bits of a hash value are zero. *)
Theorem Hash_closed_form (k : GlyphId) :
  GlyphId_wf k ->
  Hash k = (Image k * 7) mod 2 ^ 32
           + (Palette k mod 2 ^ 32) * 13 + (Palette k / 2 ^ 32) * 23 /\
  0 <= Hash k < 37 * 2 ^ 32.
Proof.
  intros Hwf. rewrite (Hash_value k Hwf). split; [reflexivity |].
  destruct Hwf as [Hi Hp]. unfold is_uint32, is_uint64 in *.
  pose proof (Z.mod_pos_bound (Image k * 7) (2 ^ 32) ltac:(lia)) as H1.
  pose proof (Z.mod_pos_bound (Palette k) (2 ^ 32) ltac:(lia)) as H2.
  assert (H3 : 0 <= Palette k / 2 ^ 32 < 2 ^ 32).
  { split; [apply Z.div_pos; lia |]. apply Z.div_lt_upper_bound; lia. }
  lia.
Qed.

(** X17: different keys can hash alike.  Raising the image id by 13 and
    lowering the palette by 7 leaves the hash value unchanged (as long as
    neither the 32-bit product nor the low half of the palette wraps), so
    the glyph map depends on [Equal] to tell such keys apart, and [Equal]
    does. *)
Theorem Hash_collision (image palette : Z) :
  0 <= image -> (image + 13) * 7 < 2 ^ 32 ->
  0 <= palette < 2 ^ 64 - 7 -> palette mod 2 ^ 32 + 7 < 2 ^ 32 ->
  let k1 := {| Image := image + 13; Palette := palette |} in
  let k2 := {| Image := image; Palette := palette + 7 |} in
  GlyphId_wf k1 /\ GlyphId_wf k2 /\
  Equal k1 k2 = false /\ Hash k1 = Hash k2.
Proof.
  intros Hi Hi7 Hp Hlow k1 k2.
  assert (Hwf1 : GlyphId_wf k1).
  { split; unfold is_uint32, is_uint64; cbn; lia. }
  assert (Hwf2 : GlyphId_wf k2).
  { split; unfold is_uint32, is_uint64; cbn; lia. }
  split; [exact Hwf1 |]. split; [exact Hwf2 |]. split.
  - unfold Equal. cbn [Image Palette k1 k2].
    replace (image + 13 =? image) with false by (symmetry; apply Z.eqb_neq; lia).
    reflexivity.
  - rewrite (Hash_value k1 Hwf1), (Hash_value k2 Hwf2). cbn [Image Palette k1 k2].
    pose proof (Z.div_mod palette (2 ^ 32) ltac:(lia)) as Hdm.
    pose proof (Z.mod_pos_bound palette (2 ^ 32) ltac:(lia)) as Hm.
    assert (Hdiv : (palette + 7) / 2 ^ 32 = palette / 2 ^ 32).
    { symmetry. apply (Z.div_unique _ _ _ (palette mod 2 ^ 32 + 7)); lia. }
    assert (Hmod : (palette + 7) mod 2 ^ 32 = palette mod 2 ^ 32 + 7).
    { symmetry. apply (Z.mod_unique _ _ (palette / 2 ^ 32)); lia. }
    rewrite Hdiv, Hmod.
    rewrite (Z.mod_small ((image + 13) * 7)) by lia.
    rewrite (Z.mod_small (image * 7)) by lia. lia.
Qed.

(** X16, witness: glyph image 65 under the palette 0x0102030405060708. *)
Lemma Hash_closed_form_witness :
  Hash {| Image := 65; Palette := 0x0102030405060708 |}
  = (65 * 7) mod 2 ^ 32
    + (0x0102030405060708 mod 2 ^ 32) * 13 + (0x0102030405060708 / 2 ^ 32) * 23 /\
  0 <= Hash {| Image := 65; Palette := 0x0102030405060708 |} < 37 * 2 ^ 32.
Proof.
  apply (Hash_closed_form {| Image := 65; Palette := 0x0102030405060708 |}).
  split; unfold is_uint32, is_uint64; cbn; lia.
Defined.

(** X17, witness: the keys (78, 0x0102030405060708) and
    (65, 0x010203040506070F). *)
Lemma Hash_collision_witness :
  GlyphId_wf {| Image := 65 + 13; Palette := 0x0102030405060708 |} /\
  GlyphId_wf {| Image := 65; Palette := 0x0102030405060708 + 7 |} /\
  Equal {| Image := 65 + 13; Palette := 0x0102030405060708 |}
        {| Image := 65; Palette := 0x0102030405060708 + 7 |} = false /\
  Hash {| Image := 65 + 13; Palette := 0x0102030405060708 |}
  = Hash {| Image := 65; Palette := 0x0102030405060708 + 7 |}.
Proof.
  apply (Hash_collision 65 0x0102030405060708).
  - lia.
  - lia.
  - lia.
  - change (84281096 + 7 < 2 ^ 32). lia.
Defined.

(** * An atlas narrower than its slot *)

Section EmptyGrid.
Context {F : IEEE}.


End EmptyGrid.


(** * Freeing a slot id that is not a cell of the grid *)

Section OutOfGrid.
Context {F : IEEE}.


End OutOfGrid.


